(** * PRR scoring and comparison engine

    A shallow embedding of the scoring loop of [submitPRRHandler] and of the
    two report builders ([generateComparisonReport] and the inline copy in
    [comparePRRSubmissionsHandler]) of
    [api/handlers/prr_submission_handlers.go], over the data model of
    [models/models.go]; then of [submitPRRHandler] as a whole, of the catalog
    the handlers fetch, and of the create, update and delete handlers of
    [api/handlers/admin_question_handlers.go].

    Go maps are finite maps ([gmap string _]); a Go slice that may be nil is
    an [option (list _)]; Go's [int] is a 64-bit two's-complement integer kept
    as a [Z] with the wrap-around of [++] written out; the unspecified
    iteration order of [range] over a map is an explicit parameter. *)

From Stdlib Require Import ZArith Ascii String.
From stdpp Require Import gmap strings list fin_maps.

Open Scope string_scope.
Open Scope Z_scope.

#[global] Set Warnings "-clear-no-such-hyp".

(** ** Go's [int]

    64 bits wide on the platforms the server is built for.  The length of a
    slice is itself an [int], so a slice never has more than [MaxInt]
    elements; that is the only fact about the width the properties use. *)

Module GoInt.

Definition bits : Z := 64.
Definition MaxInt : Z := 2 ^ (bits - 1) - 1.
Definition MinInt : Z := - 2 ^ (bits - 1).

(** Two's-complement reduction of a mathematical integer to [int]. *)
Definition wrap (z : Z) : Z := (z + 2 ^ (bits - 1)) mod 2 ^ bits - 2 ^ (bits - 1).

(** [x++] *)
Definition incr (x : Z) : Z := wrap (x + 1).

End GoInt.

(** ** strings.ToLower

    The embedding maps the bytes 'A'..'Z' to 'a'..'z' and keeps every other
    byte.  On a string of ASCII bytes this is what [strings.ToLower] returns.
    On other strings Go lower-cases rune by rune; the only runes outside
    ASCII that Go lower-cases to an ASCII letter are U+0130 (to 'i') and
    U+212A (to 'k'), and a byte that is not valid UTF-8 becomes U+FFFD, so
    the result of [strings.ToLower] equals one of the literals "yes", "no",
    "n/a" of the scoring switch exactly when the result of this embedding
    does. *)

Definition lower_byte (c : ascii) : ascii :=
  let n := N_of_ascii c in
  if ((65 <=? n)%N && (n <=? 90)%N)%bool then ascii_of_N (n + 32) else c.

Fixpoint ToLower (s : string) : string :=
  match s with
  | EmptyString => EmptyString
  | String c s' => String (lower_byte c) (ToLower s')
  end.

(** ** models/models.go *)

Record Question := {
  q_ID : string;
  q_SectionID : string;
  q_Text : string;
  q_Blurb : string;
  q_SupportingLink : string;
  q_IsEssential : bool;
  q_Order : Z;
}.

Record Answer := {
  QuestionID : string;
  Response : string;
}.

Record SectionScore := {
  SectionID : string;
  YesCount : Z;
  NoCount : Z;
  NaCount : Z;
}.

(** [time.Time] is kept as an instant on the time line; [Before] is [<]. *)
Record PRRSubmission := {
  ID : string;
  ServiceID : string;
  UserID : string;
  Timestamp : Z;
  Answers : list Answer;
  SectionScores : gmap string SectionScore;
}.

Record SectionScoreComparison := {
  OldScores : SectionScore;
  NewScores : SectionScore;
}.

Record AnswerChangeDetail := {
  acd_QuestionID : string;
  acd_QuestionText : string;
  OldAnswer : string;
  NewAnswer : string;
}.

(** A Go slice value: [None] is the nil slice, [Some l] a non-nil slice with
    the elements [l] ([Some []] is the empty, non-nil [[]T{}]). *)
Definition slice (A : Type) : Type := option (list A).

(** [append(s, x)]: appending to a nil slice allocates. *)
Definition append {A : Type} (s : slice A) (x : A) : slice A :=
  Some (default [] s ++ [x])%list.

(** The elements a [range] over the slice visits; a nil slice has none. *)
Definition elems {A : Type} (s : slice A) : list A := default [] s.

Record PRRComparisonReport := {
  r_ServiceID : string;
  PRRSubmissionIDOld : string;
  PRRSubmissionIDNew : string;
  SectionComparison : gmap string SectionScoreComparison;
  AnswerChanges : slice AnswerChangeDetail;
  NewlyAnsweredQuestions : slice AnswerChangeDetail;
  NoLongerAnsweredQuestions : slice AnswerChangeDetail;
}.

(** The zero value of [models.SectionScore]. *)
Definition zeroSectionScore : SectionScore :=
  {| SectionID := ""; YesCount := 0; NoCount := 0; NaCount := 0 |}.

(** ** submitPRRHandler, step 3: "Calculate SectionScores" *)

(** The [switch strings.ToLower(answer.Response)] of the loop body. *)
Definition tally (response : string) (score : SectionScore) : SectionScore :=
  let r := ToLower response in
  if decide (r = "yes") then
    {| SectionID := SectionID score; YesCount := GoInt.incr (YesCount score);
       NoCount := NoCount score; NaCount := NaCount score |}
  else if decide (r = "no") then
    {| SectionID := SectionID score; YesCount := YesCount score;
       NoCount := GoInt.incr (NoCount score); NaCount := NaCount score |}
  else if decide (r = "n/a") then
    {| SectionID := SectionID score; YesCount := YesCount score;
       NoCount := NoCount score; NaCount := GoInt.incr (NaCount score) |}
  else score.

(** One iteration of [for _, answer := range submission.Answers]: the two
    [continue]s leave the map as it is, otherwise the section's entry is read
    (or created with zero counts), tallied and written back. *)
Definition scoreAnswer (questionsMap : gmap string Question)
    (scores : gmap string SectionScore) (answer : Answer) : gmap string SectionScore :=
  match questionsMap !! QuestionID answer with
  | None => scores
  | Some question =>
      let sectionID := q_SectionID question in
      if decide (sectionID = "") then scores
      else
        let score :=
          match scores !! sectionID with
          | Some score => score
          | None => {| SectionID := sectionID; YesCount := 0; NoCount := 0; NaCount := 0 |}
          end in
        <[sectionID := tally (Response answer) score]> scores
  end.

(** The whole loop, started from [make(map[string]models.SectionScore)]. *)
Definition calculateSectionScores (answers : list Answer)
    (questionsMap : gmap string Question) : gmap string SectionScore :=
  fold_left (scoreAnswer questionsMap) answers ∅.

(** ** Iteration order of [range] over a map

    Go leaves the order in which [range] visits the entries of a map
    unspecified, and it may change from one loop to the next; each entry of a
    map that is not modified during the loop is visited exactly once.  A run
    of a report builder is therefore determined by its arguments together
    with the orders its five [range] loops over maps happen to take. *)

Record RangeOrder := {
  ro_oldSections : list string;            (* for id := range oldPRR.SectionScores *)
  ro_newSections : list string;            (* for id := range newPRR.SectionScores *)
  ro_allSections : list string;            (* for secID := range allSectionIDs *)
  ro_oldAnswers : list (string * string);  (* for qID, oldResp := range oldAnswersMap *)
  ro_newAnswers : list (string * string);  (* for qID, newResp := range newAnswersMap *)
}.

(** [order] is a sequence in which [range m] may yield the entries of [m]. *)
Definition ranges {V : Type} (m : gmap string V) (order : list (string * V)) : Prop :=
  order ≡ₚ map_to_list m.

(** The same for a loop that binds the key only. *)
Definition ranges_keys {V : Type} (m : gmap string V) (order : list string) : Prop :=
  order ≡ₚ (map_to_list m).*1.

(** ** generateComparisonReport *)

(** [for id := range m { allSectionIDs[id] = true }] *)
Definition collectSectionIDs (order : list string) (allSectionIDs : gmap string bool) :
    gmap string bool :=
  fold_left (fun acc id => <[id := true]> acc) order allSectionIDs.

(** The set of section ids after the two collecting loops. *)
Definition allSectionIDs (ro : RangeOrder) : gmap string bool :=
  collectSectionIDs (ro_newSections ro) (collectSectionIDs (ro_oldSections ro) ∅).

(** The body of [for secID := range allSectionIDs]: the comma-ok lookups
    whose second result is dropped yield the zero value for a missing key. *)
Definition compareSection (oldPRR newPRR : PRRSubmission)
    (comparison : gmap string SectionScoreComparison) (secID : string) :
    gmap string SectionScoreComparison :=
  let oldScore := default zeroSectionScore (SectionScores oldPRR !! secID) in
  let newScore := default zeroSectionScore (SectionScores newPRR !! secID) in
  <[secID := {| OldScores := oldScore; NewScores := newScore |}]> comparison.

Definition compareSections (oldPRR newPRR : PRRSubmission) (order : list string) :
    gmap string SectionScoreComparison :=
  fold_left (compareSection oldPRR newPRR) order ∅.

(** [for _, ans := range prr.Answers { m[ans.QuestionID] = ans.Response }] *)
Definition answersMap (answers : list Answer) : gmap string string :=
  fold_left (fun acc ans => <[QuestionID ans := Response ans]> acc) answers ∅.

(** [questionText := ""; if q, ok := allQuestions[qID]; ok { questionText = q.Text }] *)
Definition questionText (allQuestions : gmap string Question) (qID : string) : string :=
  match allQuestions !! qID with
  | Some q => q_Text q
  | None => ""
  end.

(** The body of [for qID, oldResp := range oldAnswersMap]; the state is the
    pair (report.AnswerChanges, report.NoLongerAnsweredQuestions). *)
Definition compareOldAnswer (allQuestions : gmap string Question)
    (newAnswersMap : gmap string string)
    (st : slice AnswerChangeDetail * slice AnswerChangeDetail)
    (entry : string * string) : slice AnswerChangeDetail * slice AnswerChangeDetail :=
  let '(changes, gone) := st in
  let '(qID, oldResp) := entry in
  let text := questionText allQuestions qID in
  match newAnswersMap !! qID with
  | Some newResp =>
      if decide (oldResp ≠ newResp) then
        (append changes {| acd_QuestionID := qID; acd_QuestionText := text;
                           OldAnswer := oldResp; NewAnswer := newResp |}, gone)
      else (changes, gone)
  | None =>
      (changes, append gone {| acd_QuestionID := qID; acd_QuestionText := text;
                               OldAnswer := oldResp; NewAnswer := "" |})
  end.

(** The body of [for qID, newResp := range newAnswersMap]; the state is
    report.NewlyAnsweredQuestions. *)
Definition compareNewAnswer (allQuestions : gmap string Question)
    (oldAnswersMap : gmap string string)
    (newly : slice AnswerChangeDetail) (entry : string * string) : slice AnswerChangeDetail :=
  let '(qID, newResp) := entry in
  let text := questionText allQuestions qID in
  match oldAnswersMap !! qID with
  | Some _ => newly
  | None => append newly {| acd_QuestionID := qID; acd_QuestionText := text;
                            OldAnswer := ""; NewAnswer := newResp |}
  end.

(** What the two builders share: everything after the report literal.  The
    three slices of the literal are passed in as [init]. *)
Definition buildReport (init : slice AnswerChangeDetail) (ro : RangeOrder)
    (oldPRR newPRR : PRRSubmission) (allQuestions : gmap string Question)
    (serviceID : string) : PRRComparisonReport :=
  let oldAnswersMap := answersMap (Answers oldPRR) in
  let newAnswersMap := answersMap (Answers newPRR) in
  let st := fold_left (compareOldAnswer allQuestions newAnswersMap)
                      (ro_oldAnswers ro) (init, init) in
  let newly := fold_left (compareNewAnswer allQuestions oldAnswersMap)
                         (ro_newAnswers ro) init in
  {| r_ServiceID := serviceID;
     PRRSubmissionIDOld := ID oldPRR;
     PRRSubmissionIDNew := ID newPRR;
     SectionComparison := compareSections oldPRR newPRR (ro_allSections ro);
     AnswerChanges := st.1;
     NewlyAnsweredQuestions := newly;
     NoLongerAnsweredQuestions := st.2 |}.

(** [generateComparisonReport]: its literal sets the three slices to
    [[]models.AnswerChangeDetail{}]. *)
Definition generateComparisonReport (ro : RangeOrder) (oldPRR newPRR : PRRSubmission)
    (allQuestions : gmap string Question) (serviceID : string) : PRRComparisonReport :=
  buildReport (Some []) ro oldPRR newPRR allQuestions serviceID.

(** The orders [ro] are ones a run on [oldPRR], [newPRR] can take. *)
Definition RangeOrder_ok (ro : RangeOrder) (oldPRR newPRR : PRRSubmission) : Prop :=
  ranges_keys (SectionScores oldPRR) (ro_oldSections ro) ∧
  ranges_keys (SectionScores newPRR) (ro_newSections ro) ∧
  ranges_keys (allSectionIDs ro) (ro_allSections ro) ∧
  ranges (answersMap (Answers oldPRR)) (ro_oldAnswers ro) ∧
  ranges (answersMap (Answers newPRR)) (ro_newAnswers ro).

(** One admissible choice of orders, used to run the builders on examples. *)
Definition someOrder (oldPRR newPRR : PRRSubmission) : RangeOrder :=
  let olds := (map_to_list (SectionScores oldPRR)).*1 in
  let news := (map_to_list (SectionScores newPRR)).*1 in
  {| ro_oldSections := olds;
     ro_newSections := news;
     ro_allSections := (map_to_list (collectSectionIDs news (collectSectionIDs olds ∅))).*1;
     ro_oldAnswers := map_to_list (answersMap (Answers oldPRR));
     ro_newAnswers := map_to_list (answersMap (Answers newPRR)) |}.

(** The orders of [ro] with the two answer maps iterated backwards. *)
Definition backwards (ro : RangeOrder) : RangeOrder :=
  {| ro_oldSections := ro_oldSections ro;
     ro_newSections := ro_newSections ro;
     ro_allSections := ro_allSections ro;
     ro_oldAnswers := reverse (ro_oldAnswers ro);
     ro_newAnswers := reverse (ro_newAnswers ro) |}.

(** ** comparePRRSubmissionsHandler

    The handler from its parameter checks on.  The [prr_submissions] index is
    a map from document id to submission; a store that fails to answer is not
    modelled.  [allQuestions] is the catalog the handler has fetched. *)

Inductive HandlerResponse :=
  | HttpError (status : Z) (message : string)
  | HttpOK (report : PRRComparisonReport).

(** [sub1.Timestamp.Before(sub2.Timestamp)] decides which one is old. *)
Definition orderByTimestamp (sub1 sub2 : PRRSubmission) : PRRSubmission * PRRSubmission :=
  if Timestamp sub1 <? Timestamp sub2 then (sub1, sub2) else (sub2, sub1).

(** The handler's report literal leaves the three slices out, so they start
    as nil; the rest repeats [generateComparisonReport] line by line. *)
Definition comparePRRSubmissionsHandler (ro : RangeOrder)
    (store : gmap string PRRSubmission) (allQuestions : gmap string Question)
    (serviceID prrID1 prrID2 : string) : HandlerResponse :=
  if decide (serviceID = "" ∨ prrID1 = "" ∨ prrID2 = "") then
    HttpError 400 "Missing one or more required query parameters: service_id, prr_id1, prr_id2"
  else if decide (prrID1 = prrID2) then
    HttpError 400 "prr_id1 and prr_id2 cannot be the same"
  else
    match store !! prrID1 with
    | None => HttpError 404 ("submission " +:+ prrID1 +:+ " not found")
    | Some sub1 =>
        match store !! prrID2 with
        | None => HttpError 404 ("submission " +:+ prrID2 +:+ " not found")
        | Some sub2 =>
            if decide (ServiceID sub1 ≠ serviceID ∨ ServiceID sub2 ≠ serviceID) then
              HttpError 400 "Submissions do not belong to the specified service_id"
            else
              let '(oldPRR, newPRR) := orderByTimestamp sub1 sub2 in
              HttpOK (buildReport None ro oldPRR newPRR allQuestions serviceID)
        end
    end.

(** ** Vocabulary of the properties *)

(** The answers of [answers] that the catalog places in section [s] (a
    non-empty id) and whose response is, up to letter case, [r]. *)
Definition answersOf (questionsMap : gmap string Question) (s r : string)
    (answers : list Answer) : list Answer :=
  filter (fun a => q_SectionID <$> questionsMap !! QuestionID a = Some s
                   ∧ s ≠ "" ∧ ToLower (Response a) = r) answers.

(** The answers the catalog places in section [s], whatever they respond. *)
Definition answersIn (questionsMap : gmap string Question) (s : string)
    (answers : list Answer) : list Answer :=
  filter (fun a => q_SectionID <$> questionsMap !! QuestionID a = Some s ∧ s ≠ "") answers.

(** A response that is one of the three canonical values up to letter case. *)
Definition canonical (r : string) : Prop :=
  ToLower r = "yes" ∨ ToLower r = "no" ∨ ToLower r = "n/a".

(** Equality of two strings up to the case of their ASCII letters, byte by
    byte: two bytes match when they are equal or when one is an upper-case
    letter and the other the same letter in lower case. *)
Definition isUpperN (n : N) : bool := ((65 <=? n) && (n <=? 90))%N.

Definition sameLetter (c d : ascii) : bool :=
  let m := N_of_ascii c in
  let n := N_of_ascii d in
  ((m =? n) || (isUpperN m && (m + 32 =? n)) || (isUpperN n && (n + 32 =? m)))%N.

Fixpoint equalFold (s t : string) : bool :=
  match s, t with
  | EmptyString, EmptyString => true
  | String c s', String d t' => sameLetter c d && equalFold s' t'
  | _, _ => false
  end.

(** A response that is "Yes", "No" or "N/A" in some letter case. *)
Definition recognized (r : string) : bool :=
  equalFold r "yes" || equalFold r "no" || equalFold r "n/a".

(** An answer the scorer skips: unknown question, or question without section. *)
Definition skipped (questionsMap : gmap string Question) (a : Answer) : Prop :=
  questionsMap !! QuestionID a = None
  ∨ ∃ q, questionsMap !! QuestionID a = Some q ∧ q_SectionID q = "".

(** An answer to a known question with a section and a canonical response. *)
Definition countable (questionsMap : gmap string Question) (a : Answer) : Prop :=
  (∃ q, questionsMap !! QuestionID a = Some q ∧ q_SectionID q ≠ "")
  ∧ canonical (Response a).

(** Sum of the three counts of one tally, and over all sections of a map. *)
Definition scoreTotal (sc : SectionScore) : Z := YesCount sc + NoCount sc + NaCount sc.

Definition totalCount (scores : gmap string SectionScore) : Z :=
  map_fold (fun _ sc acc => scoreTotal sc + acc) 0 scores.

(** An entry with its old and new answer exchanged. *)
Definition swapAnswers (e : AnswerChangeDetail) : AnswerChangeDetail :=
  {| acd_QuestionID := acd_QuestionID e; acd_QuestionText := acd_QuestionText e;
     OldAnswer := NewAnswer e; NewAnswer := OldAnswer e |}.

(** The question ids listed in a collection of the report. *)
Definition questionIDs (s : slice AnswerChangeDetail) : list string :=
  acd_QuestionID <$> elems s.

(** The section an answer is tallied in, if any: the two guards at the head
    of the scoring loop's body, read as a partial function. *)
Definition sectionOf (questionsMap : gmap string Question) (a : Answer) : option string :=
  match questionsMap !! QuestionID a with
  | Some q => if decide (q_SectionID q = "") then None else Some (q_SectionID q)
  | None => None
  end.

(** The tally of section [s] written with the counts of [answersOf], each
    reduced to an [int]. *)
Definition countedScore (questionsMap : gmap string Question) (s : string)
    (answers : list Answer) : SectionScore :=
  {| SectionID := s;
     YesCount := GoInt.wrap (Z.of_nat (length (answersOf questionsMap s "yes" answers)));
     NoCount := GoInt.wrap (Z.of_nat (length (answersOf questionsMap s "no" answers)));
     NaCount := GoInt.wrap (Z.of_nat (length (answersOf questionsMap s "n/a" answers))) |}.

#[global] Instance canonical_dec (r : string) : Decision (canonical r).
Proof. unfold canonical. apply _. Defined.

(** The answers with their responses put in lower case. *)
Definition lowerResponse (a : Answer) : Answer :=
  {| QuestionID := QuestionID a; Response := ToLower (Response a) |}.

Definition lowerResponses (answers : list Answer) : list Answer :=
  lowerResponse <$> answers.

(** A slice after appending the elements of [l] one by one. *)
Definition extend {A : Type} (s : slice A) (l : list A) : slice A :=
  match l with
  | [] => s
  | _ => Some (elems s ++ l)%list
  end.

(** The entry, if any, that one iteration of each answer loop appends. *)
Definition changeOf (allQuestions : gmap string Question) (newAnswersMap : gmap string string)
    (entry : string * string) : option AnswerChangeDetail :=
  match newAnswersMap !! entry.1 with
  | Some newResp =>
      if decide (entry.2 ≠ newResp) then
        Some {| acd_QuestionID := entry.1;
                acd_QuestionText := questionText allQuestions entry.1;
                OldAnswer := entry.2; NewAnswer := newResp |}
      else None
  | None => None
  end.

Definition goneOf (allQuestions : gmap string Question) (newAnswersMap : gmap string string)
    (entry : string * string) : option AnswerChangeDetail :=
  match newAnswersMap !! entry.1 with
  | Some _ => None
  | None => Some {| acd_QuestionID := entry.1;
                    acd_QuestionText := questionText allQuestions entry.1;
                    OldAnswer := entry.2; NewAnswer := "" |}
  end.

Definition newlyOf (allQuestions : gmap string Question) (oldAnswersMap : gmap string string)
    (entry : string * string) : option AnswerChangeDetail :=
  match oldAnswersMap !! entry.1 with
  | Some _ => None
  | None => Some {| acd_QuestionID := entry.1;
                    acd_QuestionText := questionText allQuestions entry.1;
                    OldAnswer := ""; NewAnswer := entry.2 |}
  end.

Definition mkQ (id sec text : string) : Question :=
  {| q_ID := id; q_SectionID := sec; q_Text := text; q_Blurb := "";
     q_SupportingLink := ""; q_IsEssential := false; q_Order := 0 |}.

Definition mkPRR (id : string) (ts : Z) (answers : list Answer)
    (scores : gmap string SectionScore) : PRRSubmission :=
  {| ID := id; ServiceID := "service1"; UserID := "u"; Timestamp := ts;
     Answers := answers; SectionScores := scores |}.

(** ** Example data: the catalog and submissions of the comparison test *)

Definition ans (qID response : string) : Answer :=
  {| QuestionID := qID; Response := response |}.

Definition score (secID : string) (yes no na : Z) : SectionScore :=
  {| SectionID := secID; YesCount := yes; NoCount := no; NaCount := na |}.

Definition testQuestions : gmap string Question :=
  <["q1" := mkQ "q1" "s1" "Question 1 Text"]>
  (<["q2" := mkQ "q2" "s1" "Question 2 Text"]>
  (<["q3" := mkQ "q3" "s2" "Question 3 Text"]>
  (<["q4" := mkQ "q4" "s2" "Question 4 Text"]> ∅))).

(** Test case "No changes". *)
Definition prrOld1 : PRRSubmission :=
  mkPRR "prrOld1" 0 [ans "q1" "Yes"] {[ "s1" := score "s1" 1 0 0 ]}.
Definition prrNew1 : PRRSubmission :=
  mkPRR "prrNew1" 1 [ans "q1" "Yes"] {[ "s1" := score "s1" 1 0 0 ]}.

(** The [prr_submissions] index holding these two. *)
Definition testStore1 : gmap string PRRSubmission :=
  <["prrOld1" := prrOld1]> {[ "prrNew1" := prrNew1 ]}.

(** Test case "One answer change". *)
Definition prrOld2 : PRRSubmission :=
  mkPRR "prrOld2" 0 [ans "q1" "Yes"] {[ "s1" := score "s1" 1 0 0 ]}.
Definition prrNew2 : PRRSubmission :=
  mkPRR "prrNew2" 1 [ans "q1" "No"] {[ "s1" := score "s1" 0 1 0 ]}.

(** Test case "Newly and No Longer Answered". *)
Definition prrOld3 : PRRSubmission :=
  mkPRR "prrOld3" 0 [ans "q1" "Yes"] {[ "s1" := score "s1" 1 0 0 ]}.
Definition prrNew3 : PRRSubmission :=
  mkPRR "prrNew3" 1 [ans "q2" "No"] {[ "s1" := score "s1" 0 1 0 ]}.

Definition detail (qID text old new : string) : AnswerChangeDetail :=
  {| acd_QuestionID := qID; acd_QuestionText := text; OldAnswer := old; NewAnswer := new |}.

(** Test case "Section score changes complex". *)
Definition prrOld4 : PRRSubmission :=
  mkPRR "prrOld4" 0 [ans "q1" "Yes"; ans "q3" "N/A"]
        (<["s1" := score "s1" 1 0 0]> {[ "s2" := score "s2" 0 0 1 ]}).
Definition prrNew4 : PRRSubmission :=
  mkPRR "prrNew4" 1 [ans "q1" "No"; ans "q2" "Yes"; ans "q4" "Yes"]
        (<["s1" := score "s1" 1 1 0]> {[ "s2" := score "s2" 1 0 0 ]}).

(** Two submissions that score different sections. *)
Definition prrOnlyS1 : PRRSubmission :=
  mkPRR "prrA" 0 [ans "q1" "Yes"] {[ "s1" := score "s1" 1 0 0 ]}.
Definition prrOnlyS2 : PRRSubmission :=
  mkPRR "prrB" 1 [ans "q3" "No"] {[ "s2" := score "s2" 0 1 0 ]}.

(** A submission with the timestamp of [prrOld1]. *)
Definition prrTie : PRRSubmission :=
  mkPRR "prrTie" 0 [ans "q2" "No"] {[ "s1" := score "s1" 0 1 0 ]}.

(** A submission that answers a question several times. *)
Definition prrTwice : PRRSubmission :=
  mkPRR "prrTwice" 0 [ans "q1" "Yes"; ans "q1" "No"; ans "q3" "N/A"; ans "q1" "Yes"] ∅.

(** ** The catalog as the handlers fetch it

    [submitPRRHandler] and [comparePRRSubmissionsHandler] build their catalog
    from the hits of a search over the [questions] index.  A hit is kept as
    the question its [_source] decodes to, or [None] when it has no
    [_source] or does not decode. *)

(** [if err := json.Unmarshal(sourceBytes, &q); err == nil && q.ID != "" {
       questionsMap[q.ID] = q }] *)
Definition addHit (questionsMap : gmap string Question) (hit : option Question) :
    gmap string Question :=
  match hit with
  | Some q => if decide (q_ID q = "") then questionsMap else <[q_ID q := q]> questionsMap
  | None => questionsMap
  end.

Definition questionsMapOfHits (hits : list (option Question)) : gmap string Question :=
  fold_left addHit hits ∅.

(** ** submitPRRHandler

    The handler from its decoded request on.  [TrimSpace] stands for
    [strings.TrimSpace], [newID] for [uuid.New().String()] and [now] for
    [time.Now().UTC()]; the [prr_submissions] index is the map the
    comparison handler reads, and indexing a document under an id stores it
    there.  A store that fails to answer is not modelled. *)

Record SubmitPRRRequest := {
  req_ServiceID : string;
  req_UserID : string;
  req_Answers : list Answer;
}.

Inductive SubmitResponse :=
  | SubmitError (status : Z) (message : string)
  | SubmitCreated (submission : PRRSubmission).

Definition submitPRRHandler (TrimSpace : string → string) (newID : string) (now : Z)
    (hits : list (option Question)) (store : gmap string PRRSubmission)
    (requestPayload : SubmitPRRRequest) : gmap string PRRSubmission * SubmitResponse :=
  if decide (TrimSpace (req_ServiceID requestPayload) = "") then
    (store, SubmitError 400 "Service ID cannot be empty")
  else if decide (TrimSpace (req_UserID requestPayload) = "") then
    (store, SubmitError 400 "User ID cannot be empty")
  else if decide (length (req_Answers requestPayload) = 0%nat) then
    (store, SubmitError 400 "Answers cannot be empty")
  else
    let questionsMap := questionsMapOfHits hits in
    let submission :=
      {| ID := newID;
         ServiceID := req_ServiceID requestPayload;
         UserID := req_UserID requestPayload;
         Timestamp := now;
         Answers := req_Answers requestPayload;
         SectionScores := calculateSectionScores (req_Answers requestPayload) questionsMap |} in
    (<[newID := submission]> store, SubmitCreated submission).

(** [strings.TrimSpace] on strings of ASCII bytes, where it strips the
    leading and trailing bytes among tab, line feed, vertical tab, form
    feed, carriage return and space.  Used to run the handler on examples. *)
Definition isSpaceASCII (c : ascii) : bool :=
  let n := N_of_ascii c in
  ((n =? 9) || (n =? 10) || (n =? 11) || (n =? 12) || (n =? 13) || (n =? 32))%N.

Fixpoint trimLeftASCII (s : string) : string :=
  match s with
  | EmptyString => EmptyString
  | String c s' => if isSpaceASCII c then trimLeftASCII s' else s
  end.

Fixpoint trimRightASCII (s : string) : string :=
  match s with
  | EmptyString => EmptyString
  | String c s' =>
      match trimRightASCII s' with
      | EmptyString => if isSpaceASCII c then EmptyString else String c EmptyString
      | t => String c t
      end
  end.

Definition trimSpaceASCII (s : string) : string := trimRightASCII (trimLeftASCII s).

(** ** admin_question_handlers.go

    The [questions] index is a map from document id to question.  Indexing
    under an id stores the document there; a partial update with ["doc"] set
    to a whole [models.Question] (every field is encoded, none is
    omitempty) replaces the document, and answers 404 when there is none;
    deleting removes it.  Request bodies are taken as decoded. *)

Inductive AdminResponse :=
  | AdminError (status : Z) (message : string)
  | AdminCreated (question : Question)
  | AdminOK (question : Question)
  | AdminNoContent.

Definition withID (question : Question) (id : string) : Question :=
  {| q_ID := id; q_SectionID := q_SectionID question; q_Text := q_Text question;
     q_Blurb := q_Blurb question; q_SupportingLink := q_SupportingLink question;
     q_IsEssential := q_IsEssential question; q_Order := q_Order question |}.

(** [question.ID = uuid.New().String()], then the document is indexed under it. *)
Definition createQuestionHandler (newID : string) (index : gmap string Question)
    (question : Question) : gmap string Question * AdminResponse :=
  let question := withID question newID in
  (<[newID := question]> index, AdminCreated question).

Definition updateQuestionHandler (index : gmap string Question)
    (questionUpdates : Question) : gmap string Question * AdminResponse :=
  if decide (q_ID questionUpdates = "") then
    (index, AdminError 400 "Question ID is required for updates")
  else
    match index !! q_ID questionUpdates with
    | None => (index, AdminError 404 "Question not found")
    | Some _ => (<[q_ID questionUpdates := questionUpdates]> index, AdminOK questionUpdates)
    end.

(** A document that is not there is answered like one that was deleted. *)
Definition deleteQuestionHandler (index : gmap string Question)
    (questionID : string) : gmap string Question * AdminResponse :=
  if decide (questionID = "") then
    (index, AdminError 400 "Missing 'id' query parameter")
  else (delete questionID index, AdminNoContent).

(** An index in which every document is stored under its own, non-empty id. *)
Definition keyedByID (index : gmap string Question) : Prop :=
  ∀ k q, index !! k = Some q → q_ID q = k ∧ k ≠ "".

(** The hits of a search that returns every document of the index. *)
Definition allHits (index : gmap string Question) (hits : list (option Question)) : Prop :=
  hits ≡ₚ (Some <$> (map_to_list index).*2).

(** A [prr_submissions] index in which every submission is stored under
    its own id and has at least one answer. *)
Definition storedWell (store : gmap string PRRSubmission) : Prop :=
  ∀ k sub, store !! k = Some sub → ID sub = k ∧ Answers sub ≠ [].

(** ** More vocabulary *)

(** Two slices with the same entries up to their order, and nil together. *)
Definition sameEntries (s1 s2 : slice AnswerChangeDetail) : Prop :=
  (s1 = None ↔ s2 = None) ∧ elems s1 ≡ₚ elems s2.

(** Two responses of the comparison handler that differ at most in the
    order of the entries of the three collections. *)
Definition sameUpToOrder (response1 response2 : HandlerResponse) : Prop :=
  match response1, response2 with
  | HttpError status1 message1, HttpError status2 message2 =>
      status1 = status2 ∧ message1 = message2
  | HttpOK report1, HttpOK report2 =>
      r_ServiceID report1 = r_ServiceID report2
      ∧ PRRSubmissionIDOld report1 = PRRSubmissionIDOld report2
      ∧ PRRSubmissionIDNew report1 = PRRSubmissionIDNew report2
      ∧ SectionComparison report1 = SectionComparison report2
      ∧ sameEntries (AnswerChanges report1) (AnswerChanges report2)
      ∧ sameEntries (NewlyAnsweredQuestions report1) (NewlyAnsweredQuestions report2)
      ∧ sameEntries (NoLongerAnsweredQuestions report1) (NoLongerAnsweredQuestions report2)
  | _, _ => False
  end.

(** The store holding the two submissions of the test case "Section score
    changes complex". *)
Definition testStore4 : gmap string PRRSubmission :=
  <["prrOld4" := prrOld4]> {[ "prrNew4" := prrNew4 ]}.

(** The section the catalog files a question under, if it has one. *)
Definition sectionOfQuestion (questionsMap : gmap string Question) (qID : string) :
    option string :=
  match questionsMap !! qID with
  | Some q => if decide (q_SectionID q = "") then None else Some (q_SectionID q)
  | None => None
  end.

(** A count of a section in a score map, zero when the section has no entry. *)
Definition countIn (count : SectionScore → Z) (scores : gmap string SectionScore)
    (s : string) : Z :=
  from_option count 0 (scores !! s).

(** What an entry says apart from the question text. *)
Definition answerTriple (e : AnswerChangeDetail) : string * string * string :=
  (acd_QuestionID e, OldAnswer e, NewAnswer e).

(** The last response a list of answers gives to a question. *)
Definition lastResponse (qID : string) (answers : list Answer) : option string :=
  Response <$> last (filter (fun a => QuestionID a = qID) answers).

(** * Properties *)

Example ToLower_examples :
  ToLower "N/A" = "n/a" ∧ ToLower "yEs" = "yes" ∧ ToLower "Maybe" = "maybe".
Proof. by repeat split. Qed.

(** The scores the comparison test attaches to [prrNew4] are the ones the
    scoring loop computes from its answers. *)
Example score_prrNew4 :
  calculateSectionScores (Answers prrNew4) testQuestions = SectionScores prrNew4.
Proof. by vm_compute. Qed.

(** ** Go's [int] *)

Lemma wrap_small z : GoInt.MinInt <= z <= GoInt.MaxInt -> GoInt.wrap z = z.
Proof.
  unfold GoInt.MinInt, GoInt.MaxInt, GoInt.wrap, GoInt.bits. intros Hz.
  rewrite Z.mod_small; lia.
Qed.

Lemma wrap_0 : GoInt.wrap 0 = 0.
Proof. reflexivity. Qed.

Lemma incr_wrap z : GoInt.incr (GoInt.wrap z) = GoInt.wrap (z + 1).
Proof.
  unfold GoInt.incr, GoInt.wrap.
  replace ((z + 2 ^ (GoInt.bits - 1)) mod 2 ^ GoInt.bits - 2 ^ (GoInt.bits - 1) + 1
           + 2 ^ (GoInt.bits - 1))
    with ((z + 2 ^ (GoInt.bits - 1)) mod 2 ^ GoInt.bits + 1) by lia.
  rewrite Zplus_mod_idemp_l. f_equal. f_equal. lia.
Qed.

Lemma wrap_length {A} (l : list A) :
  Z.of_nat (length l) <= GoInt.MaxInt -> GoInt.wrap (Z.of_nat (length l)) = Z.of_nat (length l).
Proof.
  intros H. apply wrap_small. split; [|done].
  unfold GoInt.MinInt, GoInt.bits. lia.
Qed.

(** ** strings.ToLower *)

Lemma lower_byte_idemp c : lower_byte (lower_byte c) = lower_byte c.
Proof. by destruct c as [[] [] [] [] [] [] [] []]. Qed.

Lemma ToLower_idemp s : ToLower (ToLower s) = ToLower s.
Proof. induction s as [|c s IH]; simpl; [done|]. by rewrite lower_byte_idemp, IH. Qed.

Lemma N_of_lower_byte c :
  N_of_ascii (lower_byte c)
  = if isUpperN (N_of_ascii c) then (N_of_ascii c + 32)%N else N_of_ascii c.
Proof.
  unfold lower_byte, isUpperN.
  destruct ((65 <=? N_of_ascii c)%N && (N_of_ascii c <=? 90)%N) eqn:Hup; [|done].
  apply andb_prop in Hup as [_ Hle%N.leb_le].
  apply N_ascii_embedding. lia.
Qed.

(** Lower-casing a byte gives a byte that is not an upper-case letter
    exactly when the two are the same letter. *)
Lemma lower_byte_sameLetter c d :
  isUpperN (N_of_ascii d) = false →
  lower_byte c = d ↔ sameLetter c d = true.
Proof.
  intros Hd.
  assert (Hinj : lower_byte c = d ↔ N_of_ascii (lower_byte c) = N_of_ascii d).
  { split; [by intros ->|]. intros Heq.
    by rewrite <- (ascii_N_embedding (lower_byte c)), Heq, ascii_N_embedding. }
  rewrite Hinj, N_of_lower_byte. unfold sameLetter. rewrite Hd.
  rewrite andb_false_l, orb_false_r.
  destruct (isUpperN (N_of_ascii c)) eqn:Hc.
  - rewrite andb_true_l, orb_true_iff, N.eqb_eq, N.eqb_eq. split; [auto|].
    intros [Heq|Heq]; [|done]. rewrite Heq, Hd in Hc. done.
  - rewrite andb_false_l, orb_false_r. by rewrite N.eqb_eq.
Qed.

(** For a literal without upper-case letters, "equal after [ToLower]" is
    "equal up to letter case". *)
Lemma ToLower_equalFold s t :
  (∀ d, In d (list_ascii_of_string t) → isUpperN (N_of_ascii d) = false) →
  ToLower s = t ↔ equalFold s t = true.
Proof.
  revert t. induction s as [|c s IH]; intros [|d t] Ht; simpl; try done.
  rewrite andb_true_iff, <- IH, <- lower_byte_sameLetter.
  - split; [by intros [= -> ->]|by intros [-> ->]].
  - apply Ht. by left.
  - intros d' Hd'. apply Ht. by right.
Qed.

Lemma ToLower_yes r : ToLower r = "yes" ↔ equalFold r "yes" = true.
Proof.
  apply ToLower_equalFold. intros d [<-|[<-|[<-|[]]]]; reflexivity.
Qed.

Lemma ToLower_no r : ToLower r = "no" ↔ equalFold r "no" = true.
Proof.
  apply ToLower_equalFold. intros d [<-|[<-|[]]]; reflexivity.
Qed.

Lemma ToLower_na r : ToLower r = "n/a" ↔ equalFold r "n/a" = true.
Proof.
  apply ToLower_equalFold. intros d [<-|[<-|[<-|[]]]]; reflexivity.
Qed.

Lemma canonical_recognized r : canonical r ↔ recognized r = true.
Proof.
  unfold canonical, recognized.
  rewrite !orb_true_iff, ToLower_yes, ToLower_no, ToLower_na. tauto.
Qed.

(** ** Sums over a score map *)

Lemma totalCount_insert_None (scores : gmap string SectionScore) s sc :
  scores !! s = None → totalCount (<[s := sc]> scores) = scoreTotal sc + totalCount scores.
Proof.
  intros Hs. unfold totalCount. rewrite map_fold_insert_L; [done| |done].
  intros; lia.
Qed.

Lemma totalCount_insert (scores : gmap string SectionScore) s sc :
  totalCount (<[s := sc]> scores)
  = totalCount scores + scoreTotal sc - from_option scoreTotal 0 (scores !! s).
Proof.
  destruct (scores !! s) as [old|] eqn:Hs; simpl.
  - rewrite <- insert_delete_eq.
    rewrite totalCount_insert_None by apply lookup_delete_eq.
    unfold totalCount at 2.
    rewrite (map_fold_delete_L _ _ s old scores); [|intros; lia|done].
    fold (totalCount (delete s scores)). lia.
  - rewrite totalCount_insert_None by done. lia.
Qed.

Lemma length_filter_Forall {A} (P : A → Prop) `{∀ x, Decision (P x)} (l : list A) :
  length (filter P l) = length l ↔ Forall P l.
Proof.
  induction l as [|x l IH]; [by split|].
  destruct (decide (P x)) as [HP|HP].
  - rewrite filter_cons_True by done. simpl. rewrite Forall_cons.
    split; [intros [= Hl]; split; [done|by apply IH]|].
    intros [_ Hl]. f_equal. by apply IH.
  - rewrite filter_cons_False by done. split.
    + intros Hl. pose proof (length_filter P l). simpl in Hl. lia.
    + by intros [? _]%Forall_cons.
Qed.

(** ** The scoring loop *)

Section Scoring.

Variable questionsMap : gmap string Question.

Lemma sectionOf_Some a s :
  sectionOf questionsMap a = Some s
  ↔ q_SectionID <$> questionsMap !! QuestionID a = Some s ∧ s ≠ "".
Proof.
  unfold sectionOf. destruct (questionsMap !! QuestionID a) as [q|]; simpl.
  - case_decide as Hq; split.
    + done.
    + by intros [[= <-] Hne].
    + by intros [= <-].
    + by intros [[= <-] Hne].
  - split; [done|]. by intros [? ?].
Qed.

Lemma sectionOf_None a : sectionOf questionsMap a = None ↔ skipped questionsMap a.
Proof.
  unfold sectionOf, skipped. destruct (questionsMap !! QuestionID a) as [q|].
  - case_decide; split; try done; eauto.
    intros [?|(q' & ? & ?)]; congruence.
  - split; eauto.
Qed.

Lemma calculateSectionScores_snoc answers a :
  calculateSectionScores (answers ++ [a]) questionsMap
  = scoreAnswer questionsMap (calculateSectionScores answers questionsMap) a.
Proof. unfold calculateSectionScores. by rewrite fold_left_app. Qed.

(** One iteration, read through [sectionOf]. *)
Lemma scoreAnswer_sectionOf scores a :
  scoreAnswer questionsMap scores a =
  match sectionOf questionsMap a with
  | Some s =>
      <[s := tally (Response a)
               (default {| SectionID := s; YesCount := 0; NoCount := 0; NaCount := 0 |}
                        (scores !! s))]> scores
  | None => scores
  end.
Proof.
  unfold scoreAnswer, sectionOf.
  destruct (questionsMap !! QuestionID a) as [q|]; [|done].
  case_decide; [done|]. by destruct (scores !! q_SectionID q).
Qed.

Lemma answersIn_snoc s answers a :
  answersIn questionsMap s (answers ++ [a])
  = (answersIn questionsMap s answers
     ++ if decide (sectionOf questionsMap a = Some s) then [a] else [])%list.
Proof.
  unfold answersIn. rewrite filter_app. f_equal.
  case_decide as Hs.
  - rewrite filter_cons_True; [done|]. by apply sectionOf_Some.
  - rewrite filter_cons_False; [done|]. by rewrite <- sectionOf_Some.
Qed.

Lemma answersOf_snoc s r answers a :
  answersOf questionsMap s r (answers ++ [a])
  = (answersOf questionsMap s r answers
     ++ if decide (sectionOf questionsMap a = Some s ∧ ToLower (Response a) = r)
        then [a] else [])%list.
Proof.
  unfold answersOf. rewrite filter_app. f_equal.
  case_decide as Hs.
  - rewrite filter_cons_True; [done|]. destruct Hs as [Hs ?].
    apply sectionOf_Some in Hs. tauto.
  - rewrite filter_cons_False; [done|]. intros (? & ? & ?). apply Hs.
    split; [|done]. by apply sectionOf_Some.
Qed.

Lemma answersOf_sub s r answers :
  answersIn questionsMap s answers = [] → answersOf questionsMap s r answers = [].
Proof.
  unfold answersIn, answersOf. intros Hnil.
  induction answers as [|a l IH]; [done|].
  destruct (decide (q_SectionID <$> questionsMap !! QuestionID a = Some s ∧ s ≠ "")) as [Hin|Hout].
  - by rewrite filter_cons_True in Hnil.
  - rewrite filter_cons_False in Hnil by done.
    rewrite filter_cons_False by tauto. by apply IH.
Qed.

Lemma length_answersOf_le s r answers :
  (length (answersOf questionsMap s r answers) ≤ length answers)%nat.
Proof. apply length_filter. Qed.

(** The switch of the loop body takes the tally of [answers] to the tally
    of [answers ++ [a]]. *)
Lemma tally_countedScore s answers a :
  sectionOf questionsMap a = Some s →
  tally (Response a) (countedScore questionsMap s answers)
  = countedScore questionsMap s (answers ++ [a]).
Proof.
  intros Hs. unfold tally, countedScore; simpl.
  rewrite !answersOf_snoc, !incr_wrap.
  repeat case_decide; destruct_and?; simplify_eq;
    try (exfalso; tauto); try congruence;
    rewrite ?length_app, ?Nat2Z.inj_add; simpl; rewrite ?Z.add_0_r; done.
Qed.

Lemma countedScore_snoc_other s answers a :
  sectionOf questionsMap a ≠ Some s →
  countedScore questionsMap s (answers ++ [a]) = countedScore questionsMap s answers.
Proof.
  intros Hs. unfold countedScore. rewrite !answersOf_snoc.
  rewrite !decide_False by tauto. by rewrite !app_nil_r.
Qed.

(** Every entry of the score map, in closed form. *)
Lemma calculateSectionScores_lookup answers s :
  calculateSectionScores answers questionsMap !! s =
  if decide (answersIn questionsMap s answers = []) then None
  else Some (countedScore questionsMap s answers).
Proof.
  induction answers as [|a answers IH] using rev_ind.
  { by rewrite decide_True. }
  rewrite calculateSectionScores_snoc, scoreAnswer_sectionOf, answersIn_snoc.
  destruct (sectionOf questionsMap a) as [sa|] eqn:Hsa.
  - destruct (decide (sa = s)) as [->|Hne].
    + rewrite lookup_insert_eq, (decide_True (P := Some s = Some s)) by done.
      rewrite decide_False by (by destruct (answersIn questionsMap s answers)).
      f_equal. rewrite <- tally_countedScore by done. f_equal.
      rewrite IH. case_decide as Hnil; [|done]. simpl.
      unfold countedScore. rewrite !answersOf_sub by done. reflexivity.
    + rewrite lookup_insert_ne by done.
      rewrite (decide_False (P := Some sa = Some s)) by congruence.
      rewrite app_nil_r, countedScore_snoc_other; [done|congruence].
  - rewrite (decide_False (P := None = Some s)) by done.
    rewrite app_nil_r, countedScore_snoc_other; [done|congruence].
Qed.

Lemma countedScore_nil s answers :
  answersIn questionsMap s answers = [] →
  countedScore questionsMap s answers
  = {| SectionID := s; YesCount := 0; NoCount := 0; NaCount := 0 |}.
Proof.
  intros Hnil. unfold countedScore. rewrite !answersOf_sub by done. reflexivity.
Qed.

(** Below the largest [int] the counts of [countedScore] are the plain
    numbers of answers. *)
Lemma countedScore_exact s answers :
  Z.of_nat (length answers) <= GoInt.MaxInt →
  countedScore questionsMap s answers
  = {| SectionID := s;
       YesCount := Z.of_nat (length (answersOf questionsMap s "yes" answers));
       NoCount := Z.of_nat (length (answersOf questionsMap s "no" answers));
       NaCount := Z.of_nat (length (answersOf questionsMap s "n/a" answers)) |}.
Proof.
  intros Hlen. unfold countedScore.
  rewrite !wrap_length; [done|..];
    (etrans; [apply inj_le, length_answersOf_le|done]).
Qed.

(** [C1] For every list of answers (a Go slice, so of length at most the
    largest [int]) and every catalog, an entry of the computed score map
    for a section holds as YesCount, NoCount and NaCount exactly the
    numbers of answers whose question the catalog places in that section
    (a non-empty id) and whose response is, up to letter case, "yes", "no"
    and "n/a"; a section without an entry has no such answers. *)
Theorem section_counts_exact (answers : list Answer) (s : string) :
  Z.of_nat (length answers) <= GoInt.MaxInt →
  match calculateSectionScores answers questionsMap !! s with
  | Some sc =>
      YesCount sc = Z.of_nat (length (answersOf questionsMap s "yes" answers))
      ∧ NoCount sc = Z.of_nat (length (answersOf questionsMap s "no" answers))
      ∧ NaCount sc = Z.of_nat (length (answersOf questionsMap s "n/a" answers))
  | None =>
      answersOf questionsMap s "yes" answers = []
      ∧ answersOf questionsMap s "no" answers = []
      ∧ answersOf questionsMap s "n/a" answers = []
  end.
Proof.
  intros Hlen. rewrite calculateSectionScores_lookup.
  case_decide as Hnil.
  - by rewrite !answersOf_sub.
  - by rewrite countedScore_exact.
Qed.

(** [C9] The score map is a function of the answers and the catalog, and
    it is the same map for every reordering of the answers. *)
Theorem scores_permutation_invariant (answers answers' : list Answer) :
  answers ≡ₚ answers' →
  calculateSectionScores answers questionsMap
  = calculateSectionScores answers' questionsMap.
Proof.
  intros Hperm. apply map_eq; intros s.
  rewrite !calculateSectionScores_lookup.
  assert (Hin : answersIn questionsMap s answers ≡ₚ answersIn questionsMap s answers')
    by (unfold answersIn; by rewrite Hperm).
  assert (Hof : ∀ r, length (answersOf questionsMap s r answers)
                     = length (answersOf questionsMap s r answers'))
    by (intros r; unfold answersOf; by rewrite Hperm).
  unfold countedScore. rewrite !Hof.
  destruct (decide (answersIn questionsMap s answers = [])) as [Hnil|Hcons];
    destruct (decide (answersIn questionsMap s answers' = [])) as [Hnil'|Hcons'];
    try done; exfalso.
  - rewrite Hnil in Hin. by apply Permutation_nil_l in Hin.
  - rewrite Hnil' in Hin. by apply Permutation_nil_r in Hin.
Qed.

Lemma scoreAnswer_skipped scores a :
  skipped questionsMap a → scoreAnswer questionsMap scores a = scores.
Proof.
  intros Hskip. apply sectionOf_None in Hskip.
  by rewrite scoreAnswer_sectionOf, Hskip.
Qed.

(** [C6] An answer to a question that the catalog lacks, or that the
    catalog lists without a section, changes nothing: the score map is the
    one computed from the remaining answers, those after it included; a
    lone answer to an unknown question gives the empty map. *)
Theorem skipped_answer_no_contribution (before after : list Answer) (a : Answer) :
  skipped questionsMap a →
  calculateSectionScores (before ++ a :: after) questionsMap
  = calculateSectionScores (before ++ after) questionsMap
  ∧ calculateSectionScores [a] questionsMap = ∅.
Proof.
  intros Hskip. unfold calculateSectionScores. split.
  - rewrite !fold_left_app. simpl. by rewrite scoreAnswer_skipped.
  - simpl. by rewrite scoreAnswer_skipped.
Qed.

Lemma tally_lower r sc : tally (ToLower r) sc = tally r sc.
Proof. unfold tally. by rewrite ToLower_idemp. Qed.

Lemma scoreAnswer_lower scores a :
  scoreAnswer questionsMap scores (lowerResponse a) = scoreAnswer questionsMap scores a.
Proof.
  unfold scoreAnswer, lowerResponse; cbn [QuestionID Response].
  destruct (questionsMap !! QuestionID a) as [q|]; [|done].
  by rewrite tally_lower.
Qed.

Lemma calculateSectionScores_lower answers :
  calculateSectionScores (lowerResponses answers) questionsMap
  = calculateSectionScores answers questionsMap.
Proof.
  unfold calculateSectionScores, lowerResponses.
  generalize (∅ : gmap string SectionScore).
  induction answers as [|a answers IH]; intros scores; [done|].
  simpl. by rewrite scoreAnswer_lower, IH.
Qed.

Lemma answersIn_middle s before a after :
  answersIn questionsMap s (before ++ a :: after) = [] ↔
  answersIn questionsMap s (before ++ after) = [] ∧ sectionOf questionsMap a ≠ Some s.
Proof.
  unfold answersIn. rewrite !filter_app.
  destruct (decide (sectionOf questionsMap a = Some s)) as [Hs|Hs].
  - rewrite filter_cons_True by (by apply sectionOf_Some).
    split; [|tauto]. intros Hnil. by apply app_eq_nil in Hnil as [_ ?].
  - rewrite filter_cons_False by (by rewrite <- sectionOf_Some). tauto.
Qed.

Lemma answersOf_middle s r before a after :
  ToLower (Response a) ≠ r →
  answersOf questionsMap s r (before ++ a :: after)
  = answersOf questionsMap s r (before ++ after).
Proof.
  intros Hr. unfold answersOf.
  rewrite !filter_app, filter_cons_False; [done|tauto].
Qed.

Lemma answersOf_middle_other s r before a after :
  sectionOf questionsMap a ≠ Some s →
  answersOf questionsMap s r (before ++ a :: after)
  = answersOf questionsMap s r (before ++ after).
Proof.
  intros Hs. unfold answersOf.
  rewrite !filter_app, filter_cons_False; [done|].
  intros (Hsec & Hne & _). apply Hs. by apply sectionOf_Some.
Qed.

Lemma answersOf_middle_length s r before a after :
  sectionOf questionsMap a = Some s →
  Z.of_nat (length (answersOf questionsMap s r (before ++ a :: after)))
  = Z.of_nat (length (answersOf questionsMap s r (before ++ after)))
    + (if decide (ToLower (Response a) = r) then 1 else 0).
Proof.
  intros Hs%sectionOf_Some. unfold answersOf. rewrite !filter_app, !length_app.
  case_decide as Hr.
  - rewrite filter_cons_True by tauto. simpl length. lia.
  - rewrite filter_cons_False by tauto. lia.
Qed.

Lemma countIn_answersOf answers s :
  Z.of_nat (length answers) <= GoInt.MaxInt →
  countIn YesCount (calculateSectionScores answers questionsMap) s
  = Z.of_nat (length (answersOf questionsMap s "yes" answers))
  ∧ countIn NoCount (calculateSectionScores answers questionsMap) s
    = Z.of_nat (length (answersOf questionsMap s "no" answers))
  ∧ countIn NaCount (calculateSectionScores answers questionsMap) s
    = Z.of_nat (length (answersOf questionsMap s "n/a" answers)).
Proof.
  intros Hlen. unfold countIn. rewrite calculateSectionScores_lookup.
  case_decide as Hnil.
  - by rewrite !answersOf_sub.
  - by rewrite countedScore_exact.
Qed.

Lemma decide_ToLower_equalFold r literal :
  (ToLower r = literal ↔ equalFold r literal = true) →
  (if decide (ToLower r = literal) then 1 else 0)
  = (if equalFold r literal then 1 else 0).
Proof.
  intros Hiff. destruct (equalFold r literal).
  - rewrite decide_True; [done|]. by apply Hiff.
  - rewrite decide_False; [done|]. intros Heq. by apply Hiff in Heq.
Qed.

(** [C5] Responses are matched without regard to letter case.  The score
    map of a list of answers is that of the same answers in lower case; and
    an answer to a catalogued question with a section adds exactly one to
    the "yes" count of its section when its response is "yes" in any letter
    case, one to the "no" count when it is "no", one to the "n/a" count when
    it is "n/a", and nothing otherwise, while its section has an entry and
    the entries of the other sections are those the other answers give,
    those after it included.  An answer whose response is none of the three
    raises no count: the other answers are tallied as if it were not there,
    and alone it yields the all-zero tally for its section. *)
Theorem unrecognized_response_ignored :
  (∀ answers,
     calculateSectionScores answers questionsMap
     = calculateSectionScores (lowerResponses answers) questionsMap)
  ∧ (∀ before a after q,
       questionsMap !! QuestionID a = Some q →
       q_SectionID q ≠ "" →
       Z.of_nat (length (before ++ a :: after)) <= GoInt.MaxInt →
       let s1 := q_SectionID q in
       let scores := calculateSectionScores (before ++ a :: after) questionsMap in
       let others := calculateSectionScores (before ++ after) questionsMap in
       let one literal := if equalFold (Response a) literal then 1 else 0 in
       countIn YesCount scores s1 = countIn YesCount others s1 + one "yes"
       ∧ countIn NoCount scores s1 = countIn NoCount others s1 + one "no"
       ∧ countIn NaCount scores s1 = countIn NaCount others s1 + one "n/a"
       ∧ is_Some (scores !! s1)
       ∧ (∀ s, s ≠ s1 → scores !! s = others !! s)
       ∧ calculateSectionScores [a] questionsMap
         = {[ s1 := {| SectionID := s1; YesCount := one "yes";
                       NoCount := one "no"; NaCount := one "n/a" |} ]})
  ∧ (∀ before a after q,
       questionsMap !! QuestionID a = Some q →
       q_SectionID q ≠ "" →
       recognized (Response a) = false →
       let s1 := q_SectionID q in
       let zero := {| SectionID := s1; YesCount := 0; NoCount := 0; NaCount := 0 |} in
       calculateSectionScores (before ++ a :: after) questionsMap
       = calculateSectionScores (before ++ after) questionsMap ∪ {[ s1 := zero ]}
       ∧ calculateSectionScores [a] questionsMap = {[ s1 := zero ]}).
Proof.
  split; [intros; by rewrite calculateSectionScores_lower|].
  assert (Hsingle : ∀ a s1, sectionOf questionsMap a = Some s1 →
    calculateSectionScores [a] questionsMap
    = {[ s1 := {| SectionID := s1;
                  YesCount := if equalFold (Response a) "yes" then 1 else 0;
                  NoCount := if equalFold (Response a) "no" then 1 else 0;
                  NaCount := if equalFold (Response a) "n/a" then 1 else 0 |} ]}).
  { intros a s1 Hs1. unfold calculateSectionScores; simpl.
    rewrite scoreAnswer_sectionOf, Hs1, lookup_empty; simpl.
    rewrite insert_empty. f_equal.
    rewrite <- !decide_ToLower_equalFold
      by (apply ToLower_yes || apply ToLower_no || apply ToLower_na).
    unfold tally; simpl. repeat case_decide; try done; congruence. }
  split.
  - intros before a after q Hq Hsec Hlen s1 scores others one.
    assert (Hs1 : sectionOf questionsMap a = Some s1).
    { apply sectionOf_Some. by rewrite Hq. }
    assert (Hlen' : Z.of_nat (length (before ++ after)) <= GoInt.MaxInt).
    { rewrite length_app in *. simpl in Hlen. lia. }
    destruct (countIn_answersOf (before ++ a :: after) s1 Hlen) as (Hy & Hn & Ha).
    destruct (countIn_answersOf (before ++ after) s1 Hlen') as (Hy' & Hn' & Ha').
    unfold scores, others, one.
    rewrite Hy, Hn, Ha, Hy', Hn', Ha'.
    rewrite !answersOf_middle_length by done.
    rewrite (decide_ToLower_equalFold _ "yes") by apply ToLower_yes.
    rewrite (decide_ToLower_equalFold _ "no") by apply ToLower_no.
    rewrite (decide_ToLower_equalFold _ "n/a") by apply ToLower_na.
    split_and!; try done.
    + rewrite calculateSectionScores_lookup.
      rewrite decide_False; [eauto|]. rewrite answersIn_middle. tauto.
    + intros s Hne. rewrite !calculateSectionScores_lookup.
      assert (Hs : sectionOf questionsMap a ≠ Some s) by congruence.
      unfold countedScore. rewrite !answersOf_middle_other by done.
      destruct (decide (answersIn questionsMap s (before ++ after) = [])) as [Hnil|Hcons].
      * rewrite decide_True; [done|]. by apply answersIn_middle.
      * rewrite decide_False; [done|]. rewrite answersIn_middle. tauto.
    + by apply Hsingle.
  - intros before a after q Hq Hsec Hr s1 zero.
    assert (Hs1 : sectionOf questionsMap a = Some s1).
    { apply sectionOf_Some. by rewrite Hq. }
    assert (Hc : ¬ canonical (Response a)).
    { rewrite canonical_recognized, Hr. done. }
    split.
    + apply map_eq; intros s.
      rewrite lookup_union, !calculateSectionScores_lookup.
      unfold countedScore. rewrite !answersOf_middle by (unfold canonical in Hc; tauto).
      fold (countedScore questionsMap s (before ++ after)).
      destruct (decide (s = s1)) as [->|Hne].
      * rewrite lookup_singleton_eq.
        rewrite (decide_False (P := answersIn _ _ (before ++ a :: after) = []))
          by (rewrite answersIn_middle; tauto).
        case_decide as Hnil; simpl; [|done].
        by rewrite countedScore_nil.
      * rewrite lookup_singleton_ne by done.
        destruct (decide (answersIn questionsMap s (before ++ after) = [])) as [Hnil|Hcons].
        -- rewrite decide_True; [done|]. apply answersIn_middle. split; congruence.
        -- rewrite decide_False; [reflexivity|].
           rewrite answersIn_middle. tauto.
    + rewrite (Hsingle a s1 Hs1). unfold recognized in Hr.
      apply orb_false_elim in Hr as [Hr Hna]. apply orb_false_elim in Hr as [Hy Hn].
      by rewrite Hy, Hn, Hna.
Qed.

Lemma default_countedScore s answers :
  default {| SectionID := s; YesCount := 0; NoCount := 0; NaCount := 0 |}
          (calculateSectionScores answers questionsMap !! s)
  = countedScore questionsMap s answers.
Proof.
  rewrite calculateSectionScores_lookup. case_decide; simpl; [|done].
  by rewrite countedScore_nil.
Qed.

Lemma scoreTotal_lookup s answers :
  from_option scoreTotal 0 (calculateSectionScores answers questionsMap !! s)
  = scoreTotal (countedScore questionsMap s answers).
Proof.
  rewrite calculateSectionScores_lookup. case_decide; simpl; [|done].
  by rewrite countedScore_nil.
Qed.

(** A tallied answer adds one to its section's total exactly when its
    response is canonical, as long as the counts stay within [int]. *)
Lemma scoreTotal_snoc s answers a :
  Z.of_nat (length (answers ++ [a])) <= GoInt.MaxInt →
  sectionOf questionsMap a = Some s →
  scoreTotal (countedScore questionsMap s (answers ++ [a]))
  = scoreTotal (countedScore questionsMap s answers)
    + (if decide (canonical (Response a)) then 1 else 0).
Proof.
  intros Hlen Hs.
  assert (Z.of_nat (length answers) <= GoInt.MaxInt)
    by (rewrite length_app in Hlen; lia).
  rewrite !countedScore_exact by done.
  unfold scoreTotal; simpl. rewrite !answersOf_snoc, !length_app.
  unfold canonical.
  repeat case_decide; destruct_and?; simpl; try lia; try congruence; tauto.
Qed.

Lemma countable_sectionOf a :
  countable questionsMap a
  ↔ is_Some (sectionOf questionsMap a) ∧ canonical (Response a).
Proof.
  unfold countable, sectionOf.
  destruct (questionsMap !! QuestionID a) as [q|].
  - case_decide as Hq; split; intros [Hs ?]; split; try done; eauto.
    by destruct Hs as (? & [= <-] & ?).
  - split; intros [Hs ?]; exfalso.
    + by destruct Hs as (? & ? & ?).
    + by destruct Hs.
Qed.

(** The sum of all counts is the number of countable answers. *)
Lemma totalCount_countable answers :
  Z.of_nat (length answers) <= GoInt.MaxInt →
  totalCount (calculateSectionScores answers questionsMap)
  = Z.of_nat (length (filter (fun a => is_Some (sectionOf questionsMap a)
                                       ∧ canonical (Response a)) answers)).
Proof.
  induction answers as [|a answers IH] using rev_ind; intros Hlen.
  { reflexivity. }
  assert (Hlen' : Z.of_nat (length answers) <= GoInt.MaxInt)
    by (rewrite length_app in Hlen; lia).
  rewrite calculateSectionScores_snoc, scoreAnswer_sectionOf, filter_app.
  destruct (sectionOf questionsMap a) as [s|] eqn:Hs.
  - rewrite totalCount_insert, default_countedScore, tally_countedScore by done.
    rewrite scoreTotal_lookup, scoreTotal_snoc, IH by done.
    rewrite length_app, Nat2Z.inj_add.
    case_decide as Hc.
    + rewrite filter_cons_True by (by rewrite Hs). simpl length. lia.
    + rewrite filter_cons_False by tauto. simpl length. lia.
  - rewrite filter_cons_False by (rewrite Hs; by intros [[? [=]] ?]).
    rewrite app_nil_r. by apply IH.
Qed.

(** [C7] For a list of answers (a Go slice) and a catalog, the counts of
    all sections of the score map add up to at most the number of answers,
    and to exactly that number if and only if every answer is to a
    catalogued question with a non-empty section and carries a response
    that is, up to letter case, "yes", "no" or "n/a". *)
Theorem total_at_most_answers (answers : list Answer) :
  Z.of_nat (length answers) <= GoInt.MaxInt →
  totalCount (calculateSectionScores answers questionsMap) <= Z.of_nat (length answers)
  ∧ (totalCount (calculateSectionScores answers questionsMap) = Z.of_nat (length answers)
     ↔ Forall (countable questionsMap) answers).
Proof.
  intros Hlen. rewrite totalCount_countable by done. split.
  - apply inj_le, length_filter.
  - rewrite Nat2Z.inj_iff, length_filter_Forall.
    apply Forall_iff. intros a. by rewrite countable_sectionOf.
Qed.

End Scoring.

(** *** The scoring properties on the test catalog *)

Lemma section_counts_exact_witness :
  Z.of_nat (length [ans "q1" "YES"; ans "q2" "no"; ans "q3" "N/A"; ans "q2" "yes"])
    <= GoInt.MaxInt
  ∧ match calculateSectionScores
            [ans "q1" "YES"; ans "q2" "no"; ans "q3" "N/A"; ans "q2" "yes"]
            testQuestions !! "s1" with
    | Some sc => YesCount sc = 2 ∧ NoCount sc = 1 ∧ NaCount sc = 0
    | None => False
    end.
Proof.
  split; [by vm_compute|].
  pose proof (section_counts_exact testQuestions
                [ans "q1" "YES"; ans "q2" "no"; ans "q3" "N/A"; ans "q2" "yes"] "s1") as H.
  vm_compute in H. vm_compute. apply H. discriminate.
Defined.

Lemma scores_permutation_invariant_witness :
  [ans "q1" "Yes"; ans "q3" "no"] ≡ₚ [ans "q3" "no"; ans "q1" "Yes"]
  ∧ calculateSectionScores [ans "q1" "Yes"; ans "q3" "no"] testQuestions
    = calculateSectionScores [ans "q3" "no"; ans "q1" "Yes"] testQuestions.
Proof.
  split; [apply Permutation_swap|].
  apply (scores_permutation_invariant testQuestions). apply Permutation_swap.
Defined.

Lemma skipped_answer_no_contribution_witness :
  skipped testQuestions (ans "qX" "yes")
  ∧ calculateSectionScores [ans "q1" "Yes"; ans "qX" "yes"; ans "q2" "No"] testQuestions
    = calculateSectionScores [ans "q1" "Yes"; ans "q2" "No"] testQuestions
  ∧ calculateSectionScores [ans "qX" "yes"] testQuestions = ∅.
Proof.
  assert (Hskip : skipped testQuestions (ans "qX" "yes")) by (left; reflexivity).
  split; [exact Hskip|].
  exact (skipped_answer_no_contribution testQuestions
           [ans "q1" "Yes"] [ans "q2" "No"] (ans "qX" "yes") Hskip).
Defined.

Lemma unrecognized_response_ignored_witness :
  testQuestions !! "q1" = Some (mkQ "q1" "s1" "Question 1 Text")
  ∧ Z.of_nat (length ([ans "q2" "Yes"] ++ ans "q1" "yES" :: [ans "q1" "N/a"]))
    <= GoInt.MaxInt
  ∧ countIn YesCount
      (calculateSectionScores ([ans "q2" "Yes"] ++ ans "q1" "yES" :: [ans "q1" "N/a"])
         testQuestions) "s1"
    = countIn YesCount
        (calculateSectionScores ([ans "q2" "Yes"] ++ [ans "q1" "N/a"]) testQuestions) "s1"
      + 1
  ∧ calculateSectionScores [ans "q1" "nO"] testQuestions = {[ "s1" := score "s1" 0 1 0 ]}
  ∧ recognized "Maybe" = false
  ∧ calculateSectionScores [ans "q2" "Yes"; ans "q1" "Maybe"; ans "q3" "No"] testQuestions
    = calculateSectionScores [ans "q2" "Yes"; ans "q3" "No"] testQuestions
      ∪ {[ "s1" := score "s1" 0 0 0 ]}
  ∧ calculateSectionScores [ans "q1" "Maybe"] testQuestions
    = {[ "s1" := score "s1" 0 0 0 ]}.
Proof.
  assert (Hq : testQuestions !! "q1" = Some (mkQ "q1" "s1" "Question 1 Text"))
    by reflexivity.
  assert (Hsec : q_SectionID (mkQ "q1" "s1" "Question 1 Text") ≠ "") by discriminate.
  assert (Hlen : Z.of_nat (length ([ans "q2" "Yes"] ++ ans "q1" "yES" :: [ans "q1" "N/a"]))
                 <= GoInt.MaxInt) by (by vm_compute).
  assert (Hr : recognized "Maybe" = false) by reflexivity.
  destruct (unrecognized_response_ignored testQuestions) as (_ & Hmatch & Hignore).
  split; [exact Hq|]. split; [exact Hlen|].
  split; [exact (proj1 (Hmatch [ans "q2" "Yes"] (ans "q1" "yES") [ans "q1" "N/a"]
                          _ Hq Hsec Hlen))|].
  split; [exact (proj2 (proj2 (proj2 (proj2 (proj2
            (Hmatch [] (ans "q1" "nO") [] _ Hq Hsec ltac:(by vm_compute)))))))|].
  split; [exact Hr|].
  exact (Hignore [ans "q2" "Yes"] (ans "q1" "Maybe") [ans "q3" "No"] _ Hq Hsec Hr).
Defined.

Lemma total_at_most_answers_witness :
  Z.of_nat (length [ans "q1" "Yes"; ans "qX" "no"; ans "q3" "Maybe"]) <= GoInt.MaxInt
  ∧ totalCount (calculateSectionScores
                  [ans "q1" "Yes"; ans "qX" "no"; ans "q3" "Maybe"] testQuestions) <= 3.
Proof.
  split; [by vm_compute|].
  refine (proj1 (total_at_most_answers testQuestions
                   [ans "q1" "Yes"; ans "qX" "no"; ans "q3" "Maybe"] _)).
  by vm_compute.
Defined.

(** ** Ranging over a map *)

Lemma ranges_elem_of {V} (m : gmap string V) order k v :
  ranges m order → (k, v) ∈ order ↔ m !! k = Some v.
Proof. intros Hr. unfold ranges in Hr. by rewrite Hr, elem_of_map_to_list. Qed.

Lemma ranges_keys_elem_of {V} (m : gmap string V) order k :
  ranges_keys m order → k ∈ order ↔ k ∈ dom m.
Proof.
  intros Hr. unfold ranges_keys in Hr. rewrite Hr, elem_of_dom, list_elem_of_fmap.
  split.
  - intros ([k' v] & -> & Hin). apply elem_of_map_to_list in Hin. by exists v.
  - intros [v Hv]. exists (k, v). split; [done|]. by apply elem_of_map_to_list.
Qed.

Lemma ranges_NoDup_keys {V} (m : gmap string V) order :
  ranges m order → NoDup order.*1.
Proof. intros Hr. unfold ranges in Hr. rewrite Hr. apply NoDup_fst_map_to_list. Qed.

(** ** Section comparison *)

Lemma collectSectionIDs_dom order (ids : gmap string bool) :
  dom (collectSectionIDs order ids) = list_to_set order ∪ dom ids.
Proof.
  unfold collectSectionIDs. revert ids.
  induction order as [|id order IH]; intros ids; simpl.
  - set_solver.
  - rewrite IH, dom_insert_L. set_solver.
Qed.

Lemma compareSections_lookup oldPRR newPRR order secID :
  compareSections oldPRR newPRR order !! secID =
  if decide (secID ∈ order) then
    Some {| OldScores := default zeroSectionScore (SectionScores oldPRR !! secID);
            NewScores := default zeroSectionScore (SectionScores newPRR !! secID) |}
  else None.
Proof.
  unfold compareSections.
  induction order as [|id order IH] using rev_ind.
  { rewrite decide_False by apply not_elem_of_nil. done. }
  rewrite fold_left_app; simpl. unfold compareSection at 1.
  destruct (decide (id = secID)) as [->|Hne].
  - rewrite lookup_insert_eq, decide_True; [done|]. set_solver.
  - rewrite lookup_insert_ne, IH by done.
    destruct (decide (secID ∈ order)).
    + rewrite decide_True; [done|]. set_solver.
    + rewrite decide_False; [done|]. set_solver.
Qed.

(** ** Slices *)

Lemma extend_nil {A} (s : slice A) : extend s [] = s.
Proof. done. Qed.

Lemma append_extend {A} (s : slice A) l x : append (extend s l) x = extend s (l ++ [x]).
Proof.
  unfold append, extend.
  destruct l as [|y l]; simpl; [done|]. f_equal.
  by rewrite app_comm_cons, app_assoc.
Qed.

Lemma elems_extend {A} (s : slice A) l : elems (extend s l) = (elems s ++ l)%list.
Proof. destruct l; simpl; [by rewrite app_nil_r|done]. Qed.

Lemma extend_None {A} (s : slice A) l : extend s l = None ↔ s = None ∧ l = [].
Proof. destruct l; simpl; [tauto|]. split; [done|]. by intros [_ ?]. Qed.

(** ** The answer lookup maps *)

Lemma answersMap_snoc answers a :
  answersMap (answers ++ [a]) = <[QuestionID a := Response a]> (answersMap answers).
Proof. unfold answersMap. by rewrite fold_left_app. Qed.

(** A response recorded for a question is one the submission gives. *)
Lemma answersMap_Some answers qID resp :
  answersMap answers !! qID = Some resp →
  {| QuestionID := qID; Response := resp |} ∈ answers.
Proof.
  induction answers as [|a answers IH] using rev_ind; [done|].
  rewrite answersMap_snoc, elem_of_app, list_elem_of_singleton.
  destruct (decide (QuestionID a = qID)) as [<-|Hne].
  - rewrite lookup_insert_eq. intros [= <-]. right. by destruct a.
  - rewrite lookup_insert_ne by done. auto.
Qed.

(** Every answered question has a recorded response. *)
Lemma answersMap_is_Some answers a :
  a ∈ answers → is_Some (answersMap answers !! QuestionID a).
Proof.
  induction answers as [|b answers IH] using rev_ind; [by intros ?%elem_of_nil|].
  rewrite answersMap_snoc, elem_of_app, list_elem_of_singleton.
  destruct (decide (QuestionID b = QuestionID a)) as [Heq|Hne].
  - rewrite Heq, lookup_insert_eq. eauto.
  - rewrite lookup_insert_ne by done. intros [?| ->]; [auto|done].
Qed.

(** ** The answer loops *)

Lemma compareOldAnswer_fold allQuestions newAnswersMap order changes gone :
  fold_left (compareOldAnswer allQuestions newAnswersMap) order (changes, gone)
  = (extend changes (omap (changeOf allQuestions newAnswersMap) order),
     extend gone (omap (goneOf allQuestions newAnswersMap) order)).
Proof.
  induction order as [|[qID oldResp] order IH] using rev_ind; [done|].
  rewrite fold_left_app, IH, !omap_app; simpl.
  unfold changeOf, goneOf; simpl.
  destruct (newAnswersMap !! qID) as [newResp|]; [case_decide|];
    by rewrite ?append_extend, ?app_nil_r.
Qed.

Lemma compareNewAnswer_fold allQuestions oldAnswersMap order newly :
  fold_left (compareNewAnswer allQuestions oldAnswersMap) order newly
  = extend newly (omap (newlyOf allQuestions oldAnswersMap) order).
Proof.
  induction order as [|[qID newResp] order IH] using rev_ind; [done|].
  rewrite fold_left_app, IH, !omap_app; simpl.
  unfold newlyOf; simpl.
  destruct (oldAnswersMap !! qID); by rewrite ?append_extend, ?app_nil_r.
Qed.

Section Comparison.

Variables (ro : RangeOrder) (oldPRR newPRR : PRRSubmission).
Hypothesis Hro : RangeOrder_ok ro oldPRR newPRR.

Lemma allSections_elem_of secID :
  secID ∈ ro_allSections ro
  ↔ secID ∈ dom (SectionScores oldPRR) ∪ dom (SectionScores newPRR).
Proof using Hro.
  destruct Hro as (Hold & Hnew & Hall & _).
  rewrite (ranges_keys_elem_of _ _ _ Hall). unfold allSectionIDs.
  rewrite !collectSectionIDs_dom, dom_empty_L.
  rewrite !elem_of_union, !elem_of_list_to_set.
  rewrite (ranges_keys_elem_of _ _ _ Hold), (ranges_keys_elem_of _ _ _ Hnew).
  set_solver.
Qed.

Lemma buildReport_sections init allQuestions serviceID secID :
  SectionComparison (buildReport init ro oldPRR newPRR allQuestions serviceID) !! secID =
  if decide (secID ∈ dom (SectionScores oldPRR) ∪ dom (SectionScores newPRR)) then
    Some {| OldScores := default zeroSectionScore (SectionScores oldPRR !! secID);
            NewScores := default zeroSectionScore (SectionScores newPRR !! secID) |}
  else None.
Proof using Hro.
  unfold buildReport; simpl. rewrite compareSections_lookup.
  destruct (decide (secID ∈ ro_allSections ro)) as [Hin|Hout].
  - rewrite decide_True; [done|]. by apply allSections_elem_of.
  - rewrite decide_False; [done|]. by rewrite <- allSections_elem_of.
Qed.

(** [C4] The keys of the report's section comparison are exactly the
    section ids of the old score map together with those of the new one,
    and the entry of each such id pairs the old submission's tally with
    the new one's, a side without a tally for the id showing the zero
    value. *)
Theorem section_comparison_union (allQuestions : gmap string Question) (serviceID : string) :
  let report := generateComparisonReport ro oldPRR newPRR allQuestions serviceID in
  dom (SectionComparison report)
  = dom (SectionScores oldPRR) ∪ dom (SectionScores newPRR)
  ∧ ∀ secID,
      secID ∈ dom (SectionScores oldPRR) ∪ dom (SectionScores newPRR) →
      SectionComparison report !! secID
      = Some {| OldScores := default {| SectionID := ""; YesCount := 0;
                                        NoCount := 0; NaCount := 0 |}
                                     (SectionScores oldPRR !! secID);
                NewScores := default {| SectionID := ""; YesCount := 0;
                                        NoCount := 0; NaCount := 0 |}
                                     (SectionScores newPRR !! secID) |}.
Proof using Hro.
  intros report. split.
  - apply set_eq; intros secID. rewrite elem_of_dom.
    unfold report, generateComparisonReport. rewrite buildReport_sections.
    case_decide as Hin; split; done.
  - intros secID Hin. unfold report, generateComparisonReport.
    rewrite buildReport_sections. by rewrite decide_True.
Qed.

Lemma changes_elem_of init allQuestions serviceID e :
  e ∈ elems (AnswerChanges (buildReport init ro oldPRR newPRR allQuestions serviceID))
  ↔ e ∈ elems init
    ∨ ∃ qID oldResp newResp,
        answersMap (Answers oldPRR) !! qID = Some oldResp
        ∧ answersMap (Answers newPRR) !! qID = Some newResp
        ∧ oldResp ≠ newResp
        ∧ e = {| acd_QuestionID := qID;
                 acd_QuestionText := questionText allQuestions qID;
                 OldAnswer := oldResp; NewAnswer := newResp |}.
Proof using Hro.
  destruct Hro as (_ & _ & _ & Hold & _).
  unfold buildReport; simpl. rewrite compareOldAnswer_fold; simpl.
  rewrite elems_extend, elem_of_app, list_elem_of_omap.
  apply or_iff_compat_l. split.
  - intros ([qID oldResp] & Hin & He). unfold changeOf in He; simpl in He.
    apply (ranges_elem_of _ _ _ _ Hold) in Hin.
    destruct (answersMap (Answers newPRR) !! qID) as [newResp|] eqn:Hnew; [|done].
    case_decide; [|done]. injection He as <-. by exists qID, oldResp, newResp.
  - intros (qID & oldResp & newResp & Ho & Hn & Hne & ->).
    exists (qID, oldResp). split; [by apply (ranges_elem_of _ _ _ _ Hold)|].
    unfold changeOf; simpl. rewrite Hn. by rewrite decide_True.
Qed.

Lemma gone_elem_of init allQuestions serviceID e :
  e ∈ elems (NoLongerAnsweredQuestions
               (buildReport init ro oldPRR newPRR allQuestions serviceID))
  ↔ e ∈ elems init
    ∨ ∃ qID oldResp,
        answersMap (Answers oldPRR) !! qID = Some oldResp
        ∧ answersMap (Answers newPRR) !! qID = None
        ∧ e = {| acd_QuestionID := qID;
                 acd_QuestionText := questionText allQuestions qID;
                 OldAnswer := oldResp; NewAnswer := "" |}.
Proof using Hro.
  destruct Hro as (_ & _ & _ & Hold & _).
  unfold buildReport; simpl. rewrite compareOldAnswer_fold; simpl.
  rewrite elems_extend, elem_of_app, list_elem_of_omap.
  apply or_iff_compat_l. split.
  - intros ([qID oldResp] & Hin & He). unfold goneOf in He; simpl in He.
    apply (ranges_elem_of _ _ _ _ Hold) in Hin.
    destruct (answersMap (Answers newPRR) !! qID) as [newResp|] eqn:Hnew; [done|].
    injection He as <-. by exists qID, oldResp.
  - intros (qID & oldResp & Ho & Hn & ->).
    exists (qID, oldResp). split; [by apply (ranges_elem_of _ _ _ _ Hold)|].
    unfold goneOf; simpl. by rewrite Hn.
Qed.

Lemma newly_elem_of init allQuestions serviceID e :
  e ∈ elems (NewlyAnsweredQuestions
               (buildReport init ro oldPRR newPRR allQuestions serviceID))
  ↔ e ∈ elems init
    ∨ ∃ qID newResp,
        answersMap (Answers newPRR) !! qID = Some newResp
        ∧ answersMap (Answers oldPRR) !! qID = None
        ∧ e = {| acd_QuestionID := qID;
                 acd_QuestionText := questionText allQuestions qID;
                 OldAnswer := ""; NewAnswer := newResp |}.
Proof using Hro.
  destruct Hro as (_ & _ & _ & _ & Hnew).
  unfold buildReport; simpl. rewrite compareNewAnswer_fold.
  rewrite elems_extend, elem_of_app, list_elem_of_omap.
  apply or_iff_compat_l. split.
  - intros ([qID newResp] & Hin & He). unfold newlyOf in He; simpl in He.
    apply (ranges_elem_of _ _ _ _ Hnew) in Hin.
    destruct (answersMap (Answers oldPRR) !! qID) as [oldResp|] eqn:Hold; [done|].
    injection He as <-. by exists qID, newResp.
  - intros (qID & newResp & Hn & Ho & ->).
    exists (qID, newResp). split; [by apply (ranges_elem_of _ _ _ _ Hnew)|].
    unfold newlyOf; simpl. by rewrite Ho.
Qed.

(** Membership of a question id in each collection of
    [generateComparisonReport], read off the two lookup maps. *)
Lemma changes_questionID allQuestions serviceID qID :
  qID ∈ questionIDs (AnswerChanges
          (generateComparisonReport ro oldPRR newPRR allQuestions serviceID))
  ↔ ∃ oldResp newResp,
      answersMap (Answers oldPRR) !! qID = Some oldResp
      ∧ answersMap (Answers newPRR) !! qID = Some newResp
      ∧ oldResp ≠ newResp.
Proof using Hro.
  unfold questionIDs, generateComparisonReport. rewrite list_elem_of_fmap. split.
  - intros (e & -> & He). apply changes_elem_of in He as [He|He].
    + by apply elem_of_nil in He.
    + destruct He as (q & o & n & ? & ? & ? & ->). by exists o, n.
  - intros (o & n & Ho & Hn & Hne). eexists. split; [|apply changes_elem_of].
    2:{ right. by exists qID, o, n. }
    done.
Qed.

Lemma gone_questionID allQuestions serviceID qID :
  qID ∈ questionIDs (NoLongerAnsweredQuestions
          (generateComparisonReport ro oldPRR newPRR allQuestions serviceID))
  ↔ is_Some (answersMap (Answers oldPRR) !! qID)
    ∧ answersMap (Answers newPRR) !! qID = None.
Proof using Hro.
  unfold questionIDs, generateComparisonReport. rewrite list_elem_of_fmap. split.
  - intros (e & -> & He). apply gone_elem_of in He as [He|He].
    + by apply elem_of_nil in He.
    + destruct He as (q & o & ? & ? & ->). eauto.
  - intros ([o Ho] & Hn). eexists. split; [|apply gone_elem_of].
    2:{ right. by exists qID, o. }
    done.
Qed.

Lemma newly_questionID allQuestions serviceID qID :
  qID ∈ questionIDs (NewlyAnsweredQuestions
          (generateComparisonReport ro oldPRR newPRR allQuestions serviceID))
  ↔ is_Some (answersMap (Answers newPRR) !! qID)
    ∧ answersMap (Answers oldPRR) !! qID = None.
Proof using Hro.
  unfold questionIDs, generateComparisonReport. rewrite list_elem_of_fmap. split.
  - intros (e & -> & He). apply newly_elem_of in He as [He|He].
    + by apply elem_of_nil in He.
    + destruct He as (q & n & ? & ? & ->). eauto.
  - intros ([n Hn] & Ho). eexists. split; [|apply newly_elem_of].
    2:{ right. by exists qID, n. }
    done.
Qed.

(** [C3] In a report of [generateComparisonReport] no question id is
    listed in two of AnswerChanges, NewlyAnsweredQuestions and
    NoLongerAnsweredQuestions; an id listed in AnswerChanges is answered in
    both submissions, with recorded responses that are different strings;
    and an id whose recorded responses are the same string is listed in
    none of the three. *)
Theorem answer_collections_partition (allQuestions : gmap string Question)
    (serviceID qID : string) :
  let report := generateComparisonReport ro oldPRR newPRR allQuestions serviceID in
  let changed := questionIDs (AnswerChanges report) in
  let newly := questionIDs (NewlyAnsweredQuestions report) in
  let gone := questionIDs (NoLongerAnsweredQuestions report) in
  ¬ (qID ∈ changed ∧ qID ∈ newly)
  ∧ ¬ (qID ∈ changed ∧ qID ∈ gone)
  ∧ ¬ (qID ∈ newly ∧ qID ∈ gone)
  ∧ (qID ∈ changed →
     ∃ oldResp newResp,
       {| QuestionID := qID; Response := oldResp |} ∈ Answers oldPRR
       ∧ {| QuestionID := qID; Response := newResp |} ∈ Answers newPRR
       ∧ answersMap (Answers oldPRR) !! qID = Some oldResp
       ∧ answersMap (Answers newPRR) !! qID = Some newResp
       ∧ oldResp ≠ newResp)
  ∧ (∀ resp,
       answersMap (Answers oldPRR) !! qID = Some resp →
       answersMap (Answers newPRR) !! qID = Some resp →
       (qID ∉ changed) ∧ (qID ∉ newly) ∧ (qID ∉ gone)).
Proof using Hro.
  intros report changed newly gone. unfold changed, newly, gone, report.
  split_and!.
  - rewrite changes_questionID, newly_questionID.
    intros [(o & n & Ho & Hn & Hne) [_ Ho']]. congruence.
  - rewrite changes_questionID, gone_questionID.
    intros [(o & n & Ho & Hn & Hne) [_ Hn']]. congruence.
  - rewrite newly_questionID, gone_questionID.
    intros [[[n Hn] _] [_ Hn']]. congruence.
  - rewrite changes_questionID.
    intros (o & n & Ho & Hn & Hne). exists o, n.
    split_and!; try done; by apply answersMap_Some.
  - intros resp Ho Hn.
    rewrite changes_questionID, newly_questionID, gone_questionID.
    split_and!.
    + intros (o & n & Ho' & Hn' & Hne). congruence.
    + intros [_ Ho']. congruence.
    + intros [_ Hn']. congruence.
Qed.

End Comparison.

Lemma someOrder_ok oldPRR newPRR : RangeOrder_ok (someOrder oldPRR newPRR) oldPRR newPRR.
Proof. unfold RangeOrder_ok, ranges, ranges_keys. split_and!; reflexivity. Qed.

(** *** The comparison properties on the test submissions *)

Lemma section_comparison_union_witness :
  RangeOrder_ok (someOrder prrOnlyS1 prrNew4) prrOnlyS1 prrNew4
  ∧ dom (SectionComparison
           (generateComparisonReport (someOrder prrOnlyS1 prrNew4) prrOnlyS1 prrNew4
              testQuestions "service1"))
    = dom (SectionScores prrOnlyS1) ∪ dom (SectionScores prrNew4).
Proof.
  split; [apply someOrder_ok|].
  apply (section_comparison_union (someOrder prrOnlyS1 prrNew4) prrOnlyS1 prrNew4).
  apply someOrder_ok.
Defined.

Lemma answer_collections_partition_witness :
  RangeOrder_ok (someOrder prrOld4 prrNew4) prrOld4 prrNew4
  ∧ "q1" ∈ questionIDs (AnswerChanges
        (generateComparisonReport (someOrder prrOld4 prrNew4) prrOld4 prrNew4
           testQuestions "service1"))
  ∧ ans "q1" "Yes" ∈ Answers prrOld4
  ∧ ans "q1" "No" ∈ Answers prrNew4.
Proof.
  split; [apply someOrder_ok|].
  assert (Hin : "q1" ∈ questionIDs (AnswerChanges
        (generateComparisonReport (someOrder prrOld4 prrNew4) prrOld4 prrNew4
           testQuestions "service1"))) by (vm_compute; apply list_elem_of_here).
  split; [exact Hin|].
  destruct (answer_collections_partition (someOrder prrOld4 prrNew4) prrOld4 prrNew4
              (someOrder_ok _ _) testQuestions "service1" "q1")
    as (_ & _ & _ & Hchanged & _).
  destruct (Hchanged Hin) as (o & n & Ho & Hn & Hmo & Hmn & _).
  vm_compute in Hmo. vm_compute in Hmn.
  injection Hmo as <-. injection Hmn as <-. by split.
Defined.

(** The expected reports of the repository's test cases whose maps have a
    single entry each, so that the order of iteration plays no part. *)

Example test_no_changes :
  generateComparisonReport (someOrder prrOld1 prrNew1) prrOld1 prrNew1 testQuestions "service1"
  = {| r_ServiceID := "service1";
       PRRSubmissionIDOld := "prrOld1";
       PRRSubmissionIDNew := "prrNew1";
       SectionComparison :=
         {[ "s1" := {| OldScores := score "s1" 1 0 0; NewScores := score "s1" 1 0 0 |} ]};
       AnswerChanges := Some [];
       NewlyAnsweredQuestions := Some [];
       NoLongerAnsweredQuestions := Some [] |}.
Proof. by vm_compute. Qed.

Example test_one_answer_change :
  generateComparisonReport (someOrder prrOld2 prrNew2) prrOld2 prrNew2 testQuestions "service1"
  = {| r_ServiceID := "service1";
       PRRSubmissionIDOld := "prrOld2";
       PRRSubmissionIDNew := "prrNew2";
       SectionComparison :=
         {[ "s1" := {| OldScores := score "s1" 1 0 0; NewScores := score "s1" 0 1 0 |} ]};
       AnswerChanges := Some [detail "q1" "Question 1 Text" "Yes" "No"];
       NewlyAnsweredQuestions := Some [];
       NoLongerAnsweredQuestions := Some [] |}.
Proof. by vm_compute. Qed.

Example test_newly_and_no_longer_answered :
  generateComparisonReport (someOrder prrOld3 prrNew3) prrOld3 prrNew3 testQuestions "service1"
  = {| r_ServiceID := "service1";
       PRRSubmissionIDOld := "prrOld3";
       PRRSubmissionIDNew := "prrNew3";
       SectionComparison :=
         {[ "s1" := {| OldScores := score "s1" 1 0 0; NewScores := score "s1" 0 1 0 |} ]};
       AnswerChanges := Some [];
       NewlyAnsweredQuestions := Some [detail "q2" "Question 2 Text" "" "No"];
       NoLongerAnsweredQuestions := Some [detail "q1" "Question 1 Text" "Yes" ""] |}.
Proof. by vm_compute. Qed.

(** ** The handler's copy of the comparison *)

Lemma comparePRRSubmissionsHandler_OK ro store allQuestions serviceID prrID1 prrID2 report :
  comparePRRSubmissionsHandler ro store allQuestions serviceID prrID1 prrID2 = HttpOK report →
  ∃ sub1 sub2,
    store !! prrID1 = Some sub1 ∧ store !! prrID2 = Some sub2
    ∧ report = buildReport None ro (orderByTimestamp sub1 sub2).1
                 (orderByTimestamp sub1 sub2).2 allQuestions serviceID.
Proof.
  unfold comparePRRSubmissionsHandler.
  repeat case_decide; try done.
  destruct (store !! prrID1) as [sub1|]; [|done].
  destruct (store !! prrID2) as [sub2|]; [|done].
  case_decide; [done|].
  destruct (orderByTimestamp sub1 sub2) as [o n] eqn:Hord. intros [= <-].
  exists sub1, sub2. by rewrite Hord.
Qed.

Lemma buildReport_nil_collections ro oldPRR newPRR allQuestions serviceID :
  let report := buildReport None ro oldPRR newPRR allQuestions serviceID in
  (elems (AnswerChanges report) = [] → AnswerChanges report = None)
  ∧ (elems (NewlyAnsweredQuestions report) = [] → NewlyAnsweredQuestions report = None)
  ∧ (elems (NoLongerAnsweredQuestions report) = [] → NoLongerAnsweredQuestions report = None).
Proof.
  unfold buildReport; simpl.
  rewrite compareOldAnswer_fold, compareNewAnswer_fold; simpl.
  rewrite !elems_extend; simpl.
  split_and!; intros ->; done.
Qed.

(** What [generateComparisonReport] guarantees and the handler's copy lacks:
    its three collections are never nil. *)
Lemma generateComparisonReport_collections_present ro oldPRR newPRR allQuestions serviceID :
  let report := generateComparisonReport ro oldPRR newPRR allQuestions serviceID in
  is_Some (AnswerChanges report)
  ∧ is_Some (NewlyAnsweredQuestions report)
  ∧ is_Some (NoLongerAnsweredQuestions report).
Proof.
  unfold generateComparisonReport, buildReport; simpl.
  rewrite compareOldAnswer_fold, compareNewAnswer_fold; simpl.
  split_and!; (match goal with |- is_Some (extend _ ?l) => by destruct l end).
Qed.

(** The handler's report has a nil slice wherever a collection is empty. *)
Lemma handler_collections_nil_when_empty ro store allQuestions
    serviceID prrID1 prrID2 report :
  comparePRRSubmissionsHandler ro store allQuestions serviceID prrID1 prrID2 = HttpOK report →
  (elems (AnswerChanges report) = [] → AnswerChanges report = None)
  ∧ (elems (NewlyAnsweredQuestions report) = [] → NewlyAnsweredQuestions report = None)
  ∧ (elems (NoLongerAnsweredQuestions report) = [] → NoLongerAnsweredQuestions report = None).
Proof.
  intros (sub1 & sub2 & _ & _ & ->)%comparePRRSubmissionsHandler_OK.
  apply buildReport_nil_collections.
Qed.

(** [C2] The report that serves GET /prr/compare does not keep its
    collections present.  For the two submissions of the test case "No
    changes", stored under their ids, the handler answers 200 with a report
    whose AnswerChanges, NewlyAnsweredQuestions and NoLongerAnsweredQuestions
    are all the nil slice, where [generateComparisonReport] on the same
    submissions returns three empty, non-nil slices. *)
Theorem handler_report_nil_collections :
  (∃ report,
     comparePRRSubmissionsHandler (someOrder prrOld1 prrNew1) testStore1 testQuestions
       "service1" "prrOld1" "prrNew1" = HttpOK report
     ∧ AnswerChanges report = None
     ∧ NewlyAnsweredQuestions report = None
     ∧ NoLongerAnsweredQuestions report = None)
  ∧ (let report := generateComparisonReport (someOrder prrOld1 prrNew1) prrOld1 prrNew1
                     testQuestions "service1" in
     AnswerChanges report = Some []
     ∧ NewlyAnsweredQuestions report = Some []
     ∧ NoLongerAnsweredQuestions report = Some []).
Proof.
  split.
  - eexists. split; [by vm_compute|]. by vm_compute.
  - by vm_compute.
Qed.

(** ** The side of a section comparison without a tally *)

Lemma buildReport_absent_side init ro oldPRR newPRR allQuestions serviceID secID present :
  RangeOrder_ok ro oldPRR newPRR →
  let report := buildReport init ro oldPRR newPRR allQuestions serviceID in
  (SectionScores oldPRR !! secID = Some present →
   SectionScores newPRR !! secID = None →
   SectionComparison report !! secID
   = Some {| OldScores := present; NewScores := zeroSectionScore |})
  ∧ (SectionScores oldPRR !! secID = None →
     SectionScores newPRR !! secID = Some present →
     SectionComparison report !! secID
     = Some {| OldScores := zeroSectionScore; NewScores := present |}).
Proof.
  intros Hro report. unfold report.
  split; intros Ho Hn; rewrite buildReport_sections by done;
    rewrite Ho, Hn; simpl; (rewrite decide_True; [done|]);
    rewrite elem_of_union, !elem_of_dom, Ho, Hn; eauto.
Qed.

(** [C10] For a section id that only one of the two submissions has a tally
    for, the report's entry carries on the other side the zero value of
    SectionScore: its SectionID is the empty string, not the id of the
    section, and its three counts are zero.  This holds for the report of
    [generateComparisonReport] and for the one the handler builds. *)
Theorem absent_side_is_zero_value ro oldPRR newPRR allQuestions serviceID secID present :
  RangeOrder_ok ro oldPRR newPRR →
  let zero := {| SectionID := ""; YesCount := 0; NoCount := 0; NaCount := 0 |} in
  let onlyOld report :=
    SectionScores oldPRR !! secID = Some present →
    SectionScores newPRR !! secID = None →
    SectionComparison report !! secID = Some {| OldScores := present; NewScores := zero |} in
  let onlyNew report :=
    SectionScores oldPRR !! secID = None →
    SectionScores newPRR !! secID = Some present →
    SectionComparison report !! secID = Some {| OldScores := zero; NewScores := present |} in
  (onlyOld (generateComparisonReport ro oldPRR newPRR allQuestions serviceID)
   ∧ onlyNew (generateComparisonReport ro oldPRR newPRR allQuestions serviceID))
  ∧ ∀ store prrID1 prrID2 sub1 sub2 report,
      store !! prrID1 = Some sub1 →
      store !! prrID2 = Some sub2 →
      orderByTimestamp sub1 sub2 = (oldPRR, newPRR) →
      comparePRRSubmissionsHandler ro store allQuestions serviceID prrID1 prrID2
      = HttpOK report →
      onlyOld report ∧ onlyNew report.
Proof.
  intros Hro zero onlyOld onlyNew. split.
  - by apply buildReport_absent_side.
  - intros store prrID1 prrID2 sub1 sub2 report H1 H2 Hord Hrun.
    apply comparePRRSubmissionsHandler_OK in Hrun as (s1 & s2 & H1' & H2' & ->).
    rewrite H1 in H1'. rewrite H2 in H2'. simplify_eq. rewrite Hord; simpl.
    by apply buildReport_absent_side.
Qed.

(** ** Exchanging the two submissions *)

(** [C8] Comparing A with B and comparing B with A, over the same catalog
    and service id and whatever orders the two runs take: an entry is in
    AnswerChanges of one report exactly when the entry with old and new
    answer exchanged is in AnswerChanges of the other, and the question ids
    of NewlyAnsweredQuestions of one report are those of
    NoLongerAnsweredQuestions of the other. *)
Theorem comparison_exchange ro1 ro2 prrA prrB allQuestions serviceID :
  RangeOrder_ok ro1 prrA prrB →
  RangeOrder_ok ro2 prrB prrA →
  let reportAB := generateComparisonReport ro1 prrA prrB allQuestions serviceID in
  let reportBA := generateComparisonReport ro2 prrB prrA allQuestions serviceID in
  (∀ e, e ∈ elems (AnswerChanges reportAB)
        ↔ swapAnswers e ∈ elems (AnswerChanges reportBA))
  ∧ (∀ e, e ∈ elems (AnswerChanges reportBA)
          ↔ swapAnswers e ∈ elems (AnswerChanges reportAB))
  ∧ (∀ qID, qID ∈ questionIDs (NewlyAnsweredQuestions reportAB)
            ↔ qID ∈ questionIDs (NoLongerAnsweredQuestions reportBA))
  ∧ (∀ qID, qID ∈ questionIDs (NoLongerAnsweredQuestions reportAB)
            ↔ qID ∈ questionIDs (NewlyAnsweredQuestions reportBA)).
Proof.
  intros H1 H2 reportAB reportBA. unfold reportAB, reportBA.
  assert (Hswap : ∀ ro ro' X Y,
    RangeOrder_ok ro X Y → RangeOrder_ok ro' Y X →
    ∀ e, e ∈ elems (AnswerChanges (generateComparisonReport ro X Y allQuestions serviceID))
         → swapAnswers e
           ∈ elems (AnswerChanges (generateComparisonReport ro' Y X allQuestions serviceID))).
  { intros ro ro' X Y HXY HYX e. unfold generateComparisonReport.
    rewrite !changes_elem_of by done.
    intros [He|(q & o & n & Ho & Hn & Hne & ->)]; [by apply elem_of_nil in He|].
    right. exists q, n, o. by split_and!. }
  assert (Hinv : ∀ e, swapAnswers (swapAnswers e) = e) by (by intros []).
  split_and!.
  - intros e. split; [by apply Hswap|].
    intros He. rewrite <- (Hinv e). by eapply Hswap.
  - intros e. split; [by apply Hswap|].
    intros He. rewrite <- (Hinv e). by eapply Hswap.
  - intros qID. by rewrite newly_questionID, gone_questionID.
  - intros qID. by rewrite newly_questionID, gone_questionID.
Qed.

(** *** The handler and the exchange on the test submissions *)

Lemma absent_side_is_zero_value_witness :
  RangeOrder_ok (someOrder prrOnlyS1 prrOnlyS2) prrOnlyS1 prrOnlyS2
  ∧ SectionComparison
      (generateComparisonReport (someOrder prrOnlyS1 prrOnlyS2) prrOnlyS1 prrOnlyS2
         testQuestions "service1") !! "s1"
    = Some {| OldScores := score "s1" 1 0 0; NewScores := score "" 0 0 0 |}.
Proof.
  split; [apply someOrder_ok|].
  refine (proj1 (proj1 (absent_side_is_zero_value (someOrder prrOnlyS1 prrOnlyS2)
            prrOnlyS1 prrOnlyS2 testQuestions "service1" "s1" (score "s1" 1 0 0)
            (someOrder_ok _ _))) _ _); reflexivity.
Defined.

Lemma comparison_exchange_witness :
  RangeOrder_ok (someOrder prrOld4 prrNew4) prrOld4 prrNew4
  ∧ RangeOrder_ok (someOrder prrNew4 prrOld4) prrNew4 prrOld4
  ∧ ∀ qID,
      qID ∈ questionIDs (NewlyAnsweredQuestions
              (generateComparisonReport (someOrder prrOld4 prrNew4) prrOld4 prrNew4
                 testQuestions "service1"))
      ↔ qID ∈ questionIDs (NoLongerAnsweredQuestions
                (generateComparisonReport (someOrder prrNew4 prrOld4) prrNew4 prrOld4
                   testQuestions "service1")).
Proof.
  split; [apply someOrder_ok|]. split; [apply someOrder_ok|].
  apply (comparison_exchange (someOrder prrOld4 prrNew4) (someOrder prrNew4 prrOld4)
           prrOld4 prrNew4 testQuestions "service1"); apply someOrder_ok.
Defined.

(** * Further properties of the scoring loop *)

Lemma filter_nonempty_iff {A} (P : A → Prop) `{∀ x, Decision (P x)} (l : list A) :
  filter P l ≠ [] ↔ ∃ x, x ∈ l ∧ P x.
Proof.
  split.
  - destruct (filter P l) as [|x k] eqn:Hf; [done|]. intros _.
    assert (Hx : x ∈ filter P l) by (rewrite Hf; apply list_elem_of_here).
    apply list_elem_of_filter in Hx as [? ?]. eauto.
  - intros (x & Hin & HP) Hnil.
    assert (Hx : x ∈ filter P l) by (by apply list_elem_of_filter).
    rewrite Hnil in Hx. by apply elem_of_nil in Hx.
Qed.

(** The section of an answer depends on the catalog through the section id
    of the answered question only. *)
Lemma sectionOf_fmap questionsMap a :
  sectionOf questionsMap a =
  (q_SectionID <$> questionsMap !! QuestionID a)
    ≫= (fun s => if decide (s = "") then None else Some s).
Proof. unfold sectionOf. by destruct (questionsMap !! QuestionID a). Qed.

(** A count read with zero for a missing section is the number of answers. *)
Lemma countIn_lookup questionsMap answers s :
  Z.of_nat (length answers) <= GoInt.MaxInt →
  countIn YesCount (calculateSectionScores answers questionsMap) s
  = Z.of_nat (length (answersOf questionsMap s "yes" answers))
  ∧ countIn NoCount (calculateSectionScores answers questionsMap) s
    = Z.of_nat (length (answersOf questionsMap s "no" answers))
  ∧ countIn NaCount (calculateSectionScores answers questionsMap) s
    = Z.of_nat (length (answersOf questionsMap s "n/a" answers)).
Proof.
  intros Hlen. unfold countIn. rewrite calculateSectionScores_lookup.
  case_decide as Hnil.
  - by rewrite !answersOf_sub.
  - by rewrite countedScore_exact.
Qed.

Lemma scores_dom questionsMap answers s :
  s ∈ dom (calculateSectionScores answers questionsMap)
  ↔ answersIn questionsMap s answers ≠ [].
Proof.
  rewrite elem_of_dom, calculateSectionScores_lookup.
  case_decide; split; try done; try (by intros [? ?]); eauto.
Qed.

Lemma app_nonempty {A} (l k : list A) : (l ++ k)%list ≠ [] ↔ l ≠ [] ∨ k ≠ [].
Proof.
  destruct l as [|x l]; simpl; [|by split; [left|]].
  split; [by right|]. by intros [?|?].
Qed.

(** [X1] Every entry of the score map is stored under a non-empty section
    id, carries that id in its SectionID field, and belongs to the section
    of some answer's catalogued question; and every section that the catalog
    gives to an answered question has an entry, whatever the response. *)
Theorem score_map_sections (questionsMap : gmap string Question)
    (answers : list Answer) (s : string) :
  (∀ sc, calculateSectionScores answers questionsMap !! s = Some sc →
         SectionID sc = s ∧ s ≠ "")
  ∧ (is_Some (calculateSectionScores answers questionsMap !! s)
     ↔ ∃ a q, a ∈ answers ∧ questionsMap !! QuestionID a = Some q
              ∧ q_SectionID q = s ∧ s ≠ "").
Proof.
  rewrite calculateSectionScores_lookup.
  assert (Hin : answersIn questionsMap s answers ≠ []
                ↔ ∃ a q, a ∈ answers ∧ questionsMap !! QuestionID a = Some q
                         ∧ q_SectionID q = s ∧ s ≠ "").
  { unfold answersIn. rewrite filter_nonempty_iff. split.
    - intros (a & Ha & Hs & Hne).
      destruct (questionsMap !! QuestionID a) as [q|] eqn:Hq; [|done].
      injection Hs as Hs. by exists a, q.
    - intros (a & q & Ha & Hq & Hs & Hne). exists a. split; [done|].
      rewrite Hq; simpl. split; [by f_equal|done]. }
  case_decide as Hnil; split.
  - done.
  - rewrite <- Hin. split; [by intros [? ?]|done].
  - intros sc [= <-]. split; [done|].
    apply Hin in Hnil as (? & ? & ? & ? & ? & ?). done.
  - rewrite <- Hin. split; [done|eauto].
Qed.

Lemma score_map_sections_witness :
  testQuestions !! "q3" = Some (mkQ "q3" "s2" "Question 3 Text")
  ∧ is_Some (calculateSectionScores [ans "q1" "Yes"; ans "q3" "Maybe"] testQuestions !! "s2").
Proof.
  split; [reflexivity|].
  apply (score_map_sections testQuestions [ans "q1" "Yes"; ans "q3" "Maybe"] "s2").
  exists (ans "q3" "Maybe"), (mkQ "q3" "s2" "Question 3 Text").
  split_and!; [|reflexivity|reflexivity|discriminate].
  apply list_elem_of_further, list_elem_of_here.
Defined.

(** [X2] Scoring is additive over concatenation: for two lists of answers
    that together fit a slice, the score map of the concatenation has the
    sections of either map, and each of its counts is the sum of the counts
    the two maps give the section, a map without the section giving zero. *)
Theorem scores_of_concatenation (questionsMap : gmap string Question)
    (answers1 answers2 : list Answer) (s : string) :
  Z.of_nat (length (answers1 ++ answers2)) <= GoInt.MaxInt →
  let scores1 := calculateSectionScores answers1 questionsMap in
  let scores2 := calculateSectionScores answers2 questionsMap in
  let scores := calculateSectionScores (answers1 ++ answers2) questionsMap in
  dom scores = dom scores1 ∪ dom scores2
  ∧ countIn YesCount scores s = countIn YesCount scores1 s + countIn YesCount scores2 s
  ∧ countIn NoCount scores s = countIn NoCount scores1 s + countIn NoCount scores2 s
  ∧ countIn NaCount scores s = countIn NaCount scores1 s + countIn NaCount scores2 s.
Proof.
  intros Hlen scores1 scores2 scores. unfold scores1, scores2, scores.
  assert (Z.of_nat (length answers1) <= GoInt.MaxInt
          ∧ Z.of_nat (length answers2) <= GoInt.MaxInt) as [H1 H2]
    by (rewrite length_app in Hlen; lia).
  split.
  - apply set_eq; intros s'. rewrite elem_of_union, !scores_dom.
    unfold answersIn. rewrite filter_app. apply app_nonempty.
  - destruct (countIn_lookup questionsMap (answers1 ++ answers2) s Hlen) as (-> & -> & ->).
    destruct (countIn_lookup questionsMap answers1 s H1) as (-> & -> & ->).
    destruct (countIn_lookup questionsMap answers2 s H2) as (-> & -> & ->).
    unfold answersOf. rewrite !filter_app, !length_app. lia.
Qed.

Lemma scores_of_concatenation_witness :
  Z.of_nat (length ([ans "q1" "Yes"; ans "q3" "No"] ++ [ans "q2" "yes"])) <= GoInt.MaxInt
  ∧ countIn YesCount
      (calculateSectionScores ([ans "q1" "Yes"; ans "q3" "No"] ++ [ans "q2" "yes"])
         testQuestions) "s1" = 1 + 1.
Proof.
  split; [by vm_compute|].
  refine (proj1 (proj2 (scores_of_concatenation testQuestions
            [ans "q1" "Yes"; ans "q3" "No"] [ans "q2" "yes"] "s1" _))).
  by vm_compute.
Defined.

Lemma scoreAnswer_same_section questionsMap questionsMap' scores a :
  q_SectionID <$> questionsMap !! QuestionID a
  = q_SectionID <$> questionsMap' !! QuestionID a →
  scoreAnswer questionsMap scores a = scoreAnswer questionsMap' scores a.
Proof.
  intros Hsec. rewrite !scoreAnswer_sectionOf, !sectionOf_fmap. by rewrite Hsec.
Qed.

(** [X3] The scores depend on the catalog only through the section ids of
    the answered questions: two catalogs that give every answered question
    the same section id (or both lack it) yield the same score map, whatever
    else they hold and however the questions' text, blurb, link, essential
    flag and order differ. *)
Theorem scores_depend_on_sections_only (questionsMap questionsMap' : gmap string Question)
    (answers : list Answer) :
  (∀ a, a ∈ answers →
        q_SectionID <$> questionsMap !! QuestionID a
        = q_SectionID <$> questionsMap' !! QuestionID a) →
  calculateSectionScores answers questionsMap
  = calculateSectionScores answers questionsMap'.
Proof.
  unfold calculateSectionScores. generalize (∅ : gmap string SectionScore).
  induction answers as [|a answers IH]; intros scores Hsec; [done|].
  simpl. rewrite (scoreAnswer_same_section questionsMap questionsMap').
  - apply IH. intros b Hb. apply Hsec. by apply list_elem_of_further.
  - apply Hsec, list_elem_of_here.
Qed.

Lemma scores_depend_on_sections_only_witness :
  calculateSectionScores [ans "q1" "Yes"] testQuestions
  = calculateSectionScores [ans "q1" "Yes"]
      {[ "q1" := {| q_ID := "q1"; q_SectionID := "s1"; q_Text := "reworded";
                    q_Blurb := "b"; q_SupportingLink := "l"; q_IsEssential := true;
                    q_Order := 7 |} ]}.
Proof.
  apply scores_depend_on_sections_only.
  intros a Ha. apply list_elem_of_singleton in Ha as ->. reflexivity.
Defined.

(** [X4] With an empty catalog, the case the handler only logs as "No
    questions found in the database", every answer is skipped and the score
    map of any list of answers is empty. *)
Theorem scores_with_empty_catalog (answers : list Answer) :
  calculateSectionScores answers ∅ = ∅.
Proof.
  apply map_eq; intros s. rewrite calculateSectionScores_lookup, lookup_empty.
  rewrite decide_True; [done|]. unfold answersIn.
  induction answers as [|a answers IH]; [done|].
  rewrite filter_cons_False; [done|]. rewrite lookup_empty. by intros [? ?].
Qed.

(** [X5] Once a question is gone from the catalog its answers count for
    nothing: scoring against the catalog without the question gives the score
    map of the answers to the other questions. *)
Theorem scores_after_question_removed (questionsMap : gmap string Question)
    (answers : list Answer) (qID : string) :
  calculateSectionScores answers (delete qID questionsMap)
  = calculateSectionScores (filter (fun a => QuestionID a ≠ qID) answers) questionsMap.
Proof.
  assert (Hpred : ∀ (R : Answer → Prop) s a,
    (q_SectionID <$> delete qID questionsMap !! QuestionID a = Some s ∧ R a)
    ↔ ((q_SectionID <$> questionsMap !! QuestionID a = Some s ∧ R a)
       ∧ QuestionID a ≠ qID)).
  { intros R s a. destruct (decide (QuestionID a = qID)) as [->|Hne].
    - rewrite lookup_delete_eq. simpl. split; [by intros [? ?]|by intros [_ ?]].
    - rewrite lookup_delete_ne by done. tauto. }
  apply map_eq; intros s. rewrite !calculateSectionScores_lookup.
  unfold countedScore, answersIn, answersOf.
  rewrite !list_filter_filter.
  rewrite (list_filter_iff _ _ answers (Hpred (fun _ => s ≠ "") s)).
  rewrite (list_filter_iff _ _ answers
             (Hpred (fun a => s ≠ "" ∧ ToLower (Response a) = "yes") s)).
  rewrite (list_filter_iff _ _ answers
             (Hpred (fun a => s ≠ "" ∧ ToLower (Response a) = "no") s)).
  rewrite (list_filter_iff _ _ answers
             (Hpred (fun a => s ≠ "" ∧ ToLower (Response a) = "n/a") s)).
  done.
Qed.

(** * The fetched catalog *)

Lemma questionsMapOfHits_snoc hits hit :
  questionsMapOfHits (hits ++ [hit]) = addHit (questionsMapOfHits hits) hit.
Proof. unfold questionsMapOfHits. by rewrite fold_left_app. Qed.

Lemma questionsMapOfHits_Some hits k q :
  questionsMapOfHits hits !! k = Some q → q_ID q = k ∧ k ≠ "" ∧ Some q ∈ hits.
Proof.
  induction hits as [|hit hits IH] using rev_ind; [done|].
  rewrite questionsMapOfHits_snoc, elem_of_app, list_elem_of_singleton.
  destruct hit as [q'|]; simpl; [|naive_solver].
  case_decide as Hid; [naive_solver|].
  destruct (decide (q_ID q' = k)) as [<-|Hne].
  - rewrite lookup_insert_eq. intros [= <-]. auto.
  - rewrite lookup_insert_ne by done. naive_solver.
Qed.

Lemma questionsMapOfHits_is_Some hits q :
  Some q ∈ hits → q_ID q ≠ "" → is_Some (questionsMapOfHits hits !! q_ID q).
Proof.
  induction hits as [|hit hits IH] using rev_ind; [by intros ?%elem_of_nil|].
  rewrite questionsMapOfHits_snoc, elem_of_app, list_elem_of_singleton.
  intros Hin Hid. destruct hit as [q'|]; simpl.
  - case_decide as Hid'.
    + destruct Hin as [Hin|[= ->]]; [by apply IH|done].
    + destruct (decide (q_ID q' = q_ID q)) as [Heq|Hne].
      * rewrite Heq, lookup_insert_eq. eauto.
      * rewrite lookup_insert_ne by done.
        destruct Hin as [Hin|[= ->]]; [by apply IH|done].
  - destruct Hin as [Hin|?]; [by apply IH|done].
Qed.

(** [X6] The catalog the handlers build from the hits of the [questions]
    search holds every question under its own id: an entry is a decoded hit,
    stored under the id it carries, and that id is not empty; and every
    decoded hit with a non-empty id has its id in the catalog.  Hits
    without an id are left out. *)
Theorem fetched_catalog_keyed_by_id (hits : list (option Question)) :
  (∀ k q, questionsMapOfHits hits !! k = Some q →
          q_ID q = k ∧ k ≠ "" ∧ Some q ∈ hits)
  ∧ (∀ q, Some q ∈ hits → q_ID q ≠ "" → is_Some (questionsMapOfHits hits !! q_ID q))
  ∧ questionsMapOfHits hits !! "" = None.
Proof.
  split_and!.
  - apply questionsMapOfHits_Some.
  - apply questionsMapOfHits_is_Some.
  - destruct (questionsMapOfHits hits !! "") as [q|] eqn:Hq; [|done].
    by apply questionsMapOfHits_Some in Hq as (_ & ? & _).
Qed.

Lemma fetched_catalog_keyed_by_id_witness :
  Some (mkQ "q1" "s1" "t") ∈ [Some (mkQ "" "s9" "no id"); None; Some (mkQ "q1" "s1" "t")]
  ∧ is_Some (questionsMapOfHits
               [Some (mkQ "" "s9" "no id"); None; Some (mkQ "q1" "s1" "t")] !! "q1").
Proof.
  assert (Hin : Some (mkQ "q1" "s1" "t")
                ∈ [Some (mkQ "" "s9" "no id"); None; Some (mkQ "q1" "s1" "t")])
    by (do 2 apply list_elem_of_further; apply list_elem_of_here).
  split; [exact Hin|].
  apply (proj1 (proj2 (fetched_catalog_keyed_by_id _)) (mkQ "q1" "s1" "t") Hin).
  discriminate.
Defined.

(** [X7] An answer that names no question (an empty question id) is never
    scored against a fetched catalog, wherever it stands among the answers:
    the catalog has no entry under the empty id. *)
Theorem answer_without_question_id_skipped (hits : list (option Question))
    (before after : list Answer) (a : Answer) :
  QuestionID a = "" →
  calculateSectionScores (before ++ a :: after) (questionsMapOfHits hits)
  = calculateSectionScores (before ++ after) (questionsMapOfHits hits).
Proof.
  intros Hid. unfold calculateSectionScores. rewrite !fold_left_app. simpl.
  rewrite scoreAnswer_skipped; [done|]. left. rewrite Hid.
  destruct (questionsMapOfHits hits !! "") as [q|] eqn:Hq; [|done].
  by apply questionsMapOfHits_Some in Hq as (_ & ? & _).
Qed.

Lemma answer_without_question_id_skipped_witness :
  calculateSectionScores ([ans "q1" "Yes"] ++ ans "" "yes" :: [ans "q1" "no"])
    (questionsMapOfHits [Some (mkQ "" "s9" "no id"); Some (mkQ "q1" "s1" "t")])
  = calculateSectionScores ([ans "q1" "Yes"] ++ [ans "q1" "no"])
      (questionsMapOfHits [Some (mkQ "" "s9" "no id"); Some (mkQ "q1" "s1" "t")]).
Proof. by apply answer_without_question_id_skipped. Defined.

(** [X8] Fetching the catalog gives back the index: when every document of
    the [questions] index is stored under its own non-empty id and the
    search returns all of them, in any order, the catalog built from the
    hits is the index itself. *)
Theorem fetched_catalog_is_index (index : gmap string Question)
    (hits : list (option Question)) :
  keyedByID index →
  allHits index hits →
  questionsMapOfHits hits = index.
Proof.
  intros Hkey Hall.
  assert (Hin : ∀ q, Some q ∈ hits ↔ ∃ k, index !! k = Some q).
  { intros q. unfold allHits in Hall. rewrite Hall, list_elem_of_fmap. split.
    - intros (q' & [= <-] & Hq). apply list_elem_of_fmap in Hq as ([k q''] & -> & Hq).
      exists k. by apply elem_of_map_to_list.
    - intros [k Hk]. exists q. split; [done|]. apply list_elem_of_fmap.
      exists (k, q). split; [done|]. by apply elem_of_map_to_list. }
  apply map_eq; intros k.
  destruct (index !! k) as [q|] eqn:Hk.
  - destruct (Hkey _ _ Hk) as [Hid Hne].
    assert (Hq : Some q ∈ hits) by (apply Hin; eauto).
    destruct (questionsMapOfHits_is_Some hits q Hq) as [q' Hq']; [by rewrite Hid|].
    rewrite Hid in Hq'. rewrite Hq'. f_equal.
    apply questionsMapOfHits_Some in Hq' as (Hid' & _ & Hq'in).
    apply Hin in Hq'in as [k' Hk']. destruct (Hkey _ _ Hk') as [Hid'' _].
    assert (k' = k) by congruence. subst k'. congruence.
  - destruct (questionsMapOfHits hits !! k) as [q'|] eqn:Hq'; [|done].
    apply questionsMapOfHits_Some in Hq' as (Hid' & _ & Hq'in).
    apply Hin in Hq'in as [k' Hk']. destruct (Hkey _ _ Hk') as [Hid'' _].
    assert (k' = k) by congruence. subst k'. congruence.
Qed.

Lemma testQuestions_keyedByID : keyedByID testQuestions.
Proof.
  intros k q Hk. unfold testQuestions in Hk.
  repeat (apply lookup_insert_Some in Hk as [[<- <-]|[? Hk]]; [by split|]).
  by rewrite lookup_empty in Hk.
Qed.

Lemma fetched_catalog_is_index_witness :
  keyedByID testQuestions
  ∧ allHits testQuestions (Some <$> (map_to_list testQuestions).*2)
  ∧ questionsMapOfHits (Some <$> (map_to_list testQuestions).*2) = testQuestions.
Proof.
  assert (Hall : allHits testQuestions (Some <$> (map_to_list testQuestions).*2))
    by (unfold allHits; reflexivity).
  split; [exact testQuestions_keyedByID|]. split; [exact Hall|].
  exact (fetched_catalog_is_index _ _ testQuestions_keyedByID Hall).
Defined.

(** * Further properties of the comparison *)

Lemma questionIDs_extend_nil f (order : list (string * string)) :
  (∀ e d, f e = Some d → acd_QuestionID d = e.1) →
  questionIDs (extend (Some []) (omap f order)) = acd_QuestionID <$> omap f order.
Proof. intros _. unfold questionIDs. by rewrite elems_extend. Qed.

Lemma NoDup_omap_keys (f : string * string → option AnswerChangeDetail) order :
  (∀ e d, f e = Some d → acd_QuestionID d = e.1) →
  NoDup order.*1 → NoDup (acd_QuestionID <$> omap f order).
Proof.
  intros Hkey. induction order as [|e order IH]; simpl; [constructor|].
  intros [Hnotin Hnd]%NoDup_cons. destruct (f e) as [d|] eqn:Hfe; simpl; [|by apply IH].
  apply NoDup_cons. split; [|by apply IH].
  rewrite (Hkey _ _ Hfe). intros Hin. apply Hnotin.
  apply list_elem_of_fmap in Hin as (d' & Hd' & Hin).
  apply list_elem_of_omap in Hin as (e' & He' & Hfe').
  apply list_elem_of_fmap. exists e'. split; [|done].
  by rewrite Hd', (Hkey _ _ Hfe').
Qed.

Lemma changeOf_key allQuestions m e d :
  changeOf allQuestions m e = Some d → acd_QuestionID d = e.1.
Proof.
  unfold changeOf. destruct (m !! e.1); [|done].
  case_decide; [|done]. by intros [= <-].
Qed.

Lemma goneOf_key allQuestions m e d :
  goneOf allQuestions m e = Some d → acd_QuestionID d = e.1.
Proof. unfold goneOf. destruct (m !! e.1); [done|]. by intros [= <-]. Qed.

Lemma newlyOf_key allQuestions m e d :
  newlyOf allQuestions m e = Some d → acd_QuestionID d = e.1.
Proof. unfold newlyOf. destruct (m !! e.1); [done|]. by intros [= <-]. Qed.

(** [X9] In a report of [generateComparisonReport] every question id is
    listed at most once over all of AnswerChanges, NewlyAnsweredQuestions
    and NoLongerAnsweredQuestions taken together: no collection repeats an
    id, even when a submission answers a question several times. *)
Theorem question_listed_at_most_once ro oldPRR newPRR allQuestions serviceID :
  RangeOrder_ok ro oldPRR newPRR →
  let report := generateComparisonReport ro oldPRR newPRR allQuestions serviceID in
  NoDup (questionIDs (AnswerChanges report)
         ++ questionIDs (NewlyAnsweredQuestions report)
         ++ questionIDs (NoLongerAnsweredQuestions report)).
Proof.
  intros Hro report.
  assert (Hc : NoDup (questionIDs (AnswerChanges report))
               ∧ NoDup (questionIDs (NewlyAnsweredQuestions report))
               ∧ NoDup (questionIDs (NoLongerAnsweredQuestions report))).
  { destruct Hro as (_ & _ & _ & Hold & Hnew).
    unfold report, generateComparisonReport, buildReport; simpl.
    rewrite compareOldAnswer_fold, compareNewAnswer_fold; simpl.
    rewrite !questionIDs_extend_nil
      by eauto using changeOf_key, goneOf_key, newlyOf_key.
    split_and!; apply NoDup_omap_keys;
      eauto using changeOf_key, goneOf_key, newlyOf_key, ranges_NoDup_keys. }
  destruct Hc as (Hc & Hn & Hg).
  apply NoDup_app. split; [done|]. split.
  - intros qID Hin [Hin'|Hin']%elem_of_app; unfold report in *.
    + apply changes_questionID in Hin as (o & n & Ho & _); [|done].
      apply newly_questionID in Hin' as [_ Ho']; [|done]. congruence.
    + apply changes_questionID in Hin as (o & n & _ & Hn' & _); [|done].
      apply gone_questionID in Hin' as [_ Hn'']; [|done]. congruence.
  - apply NoDup_app. split; [done|]. split; [|done].
    intros qID Hin Hin'; unfold report in *.
    apply newly_questionID in Hin as [[n Hn'] _]; [|done].
    apply gone_questionID in Hin' as [_ Hn'']; [|done]. congruence.
Qed.

Lemma question_listed_at_most_once_witness :
  RangeOrder_ok (someOrder prrTwice prrNew4) prrTwice prrNew4
  ∧ NoDup (questionIDs (AnswerChanges
             (generateComparisonReport (someOrder prrTwice prrNew4) prrTwice prrNew4
                testQuestions "service1"))
           ++ questionIDs (NewlyAnsweredQuestions
                (generateComparisonReport (someOrder prrTwice prrNew4) prrTwice prrNew4
                   testQuestions "service1"))
           ++ questionIDs (NoLongerAnsweredQuestions
                (generateComparisonReport (someOrder prrTwice prrNew4) prrTwice prrNew4
                   testQuestions "service1"))).
Proof.
  split; [apply someOrder_ok|].
  apply (question_listed_at_most_once (someOrder prrTwice prrNew4) prrTwice prrNew4).
  apply someOrder_ok.
Defined.

Lemma answersMap_answered answers qID :
  is_Some (answersMap answers !! qID) ↔ ∃ a, a ∈ answers ∧ QuestionID a = qID.
Proof.
  split.
  - intros [r Hr]. apply answersMap_Some in Hr. eauto.
  - intros (a & Ha & <-). by apply answersMap_is_Some.
Qed.

(** [X10] The three collections of [generateComparisonReport] leave out
    only the unchanged questions: a question id is answered in one of the
    two submissions exactly when it is listed in AnswerChanges,
    NewlyAnsweredQuestions or NoLongerAnsweredQuestions, or both submissions
    record the same response for it. *)
Theorem answered_questions_covered ro oldPRR newPRR allQuestions serviceID qID :
  RangeOrder_ok ro oldPRR newPRR →
  let report := generateComparisonReport ro oldPRR newPRR allQuestions serviceID in
  (∃ a, (a ∈ Answers oldPRR ∨ a ∈ Answers newPRR) ∧ QuestionID a = qID)
  ↔ qID ∈ questionIDs (AnswerChanges report)
    ∨ qID ∈ questionIDs (NewlyAnsweredQuestions report)
    ∨ qID ∈ questionIDs (NoLongerAnsweredQuestions report)
    ∨ ∃ resp, answersMap (Answers oldPRR) !! qID = Some resp
              ∧ answersMap (Answers newPRR) !! qID = Some resp.
Proof.
  intros Hro report. unfold report.
  rewrite changes_questionID, newly_questionID, gone_questionID by done.
  assert (Hany : (∃ a, (a ∈ Answers oldPRR ∨ a ∈ Answers newPRR) ∧ QuestionID a = qID)
                 ↔ is_Some (answersMap (Answers oldPRR) !! qID)
                   ∨ is_Some (answersMap (Answers newPRR) !! qID)).
  { rewrite !answersMap_answered. naive_solver. }
  rewrite Hany.
  destruct (answersMap (Answers oldPRR) !! qID) as [o|] eqn:Ho;
    destruct (answersMap (Answers newPRR) !! qID) as [n|] eqn:Hn.
  - split; [intros _|eauto]. destruct (decide (o = n)) as [->|Hne]; [eauto 10|].
    left. by exists o, n.
  - split; [intros _|eauto]. right. right. left. eauto.
  - split; [intros _|eauto]. right. left. eauto.
  - split.
    + by intros [[? ?]|[? ?]].
    + intros [(? & ? & ? & _)|[[[? ?] _]|[[[? ?] _]|(? & ? & _)]]]; done.
Qed.

Lemma answered_questions_covered_witness :
  RangeOrder_ok (someOrder prrOld4 prrNew4) prrOld4 prrNew4
  ∧ ("q3" ∈ questionIDs (AnswerChanges
        (generateComparisonReport (someOrder prrOld4 prrNew4) prrOld4 prrNew4
           testQuestions "service1"))
     ∨ "q3" ∈ questionIDs (NewlyAnsweredQuestions
        (generateComparisonReport (someOrder prrOld4 prrNew4) prrOld4 prrNew4
           testQuestions "service1"))
     ∨ "q3" ∈ questionIDs (NoLongerAnsweredQuestions
        (generateComparisonReport (someOrder prrOld4 prrNew4) prrOld4 prrNew4
           testQuestions "service1"))
     ∨ ∃ resp, answersMap (Answers prrOld4) !! "q3" = Some resp
               ∧ answersMap (Answers prrNew4) !! "q3" = Some resp).
Proof.
  split; [apply someOrder_ok|].
  apply (answered_questions_covered (someOrder prrOld4 prrNew4) prrOld4 prrNew4
           testQuestions "service1" "q3" (someOrder_ok _ _)).
  exists (ans "q3" "N/A"). split; [|reflexivity].
  left. apply list_elem_of_further, list_elem_of_here.
Defined.

Lemma elems_nil_Some {A} (s : slice A) :
  is_Some s → (∀ x, x ∉ elems s) → s = Some [].
Proof.
  intros [l ->] Hno. simpl in Hno. destruct l as [|x l]; [done|].
  exfalso. apply (Hno x), list_elem_of_here.
Qed.

(** [X11] Comparing a submission with itself reports no difference: the
    three collections of [generateComparisonReport] are empty (and not
    nil), and each section of the submission is paired with its own tally
    on both sides. *)
Theorem comparison_with_itself ro prr allQuestions serviceID :
  RangeOrder_ok ro prr prr →
  let report := generateComparisonReport ro prr prr allQuestions serviceID in
  AnswerChanges report = Some []
  ∧ NewlyAnsweredQuestions report = Some []
  ∧ NoLongerAnsweredQuestions report = Some []
  ∧ ∀ secID, SectionComparison report !! secID
             = (fun sc => {| OldScores := sc; NewScores := sc |})
               <$> SectionScores prr !! secID.
Proof.
  intros Hro report.
  destruct (generateComparisonReport_collections_present ro prr prr allQuestions serviceID)
    as (Hc & Hn & Hg).
  split_and!.
  - apply elems_nil_Some; [done|]. intros e He.
    apply changes_elem_of in He as [He|(q & o & n & Ho & Hn' & Hne & _)]; [|congruence|done].
    by apply elem_of_nil in He.
  - apply elems_nil_Some; [done|]. intros e He.
    apply newly_elem_of in He as [He|(q & n & Hn' & Ho & _)]; [|congruence|done].
    by apply elem_of_nil in He.
  - apply elems_nil_Some; [done|]. intros e He.
    apply gone_elem_of in He as [He|(q & o & Ho & Hn' & _)]; [|congruence|done].
    by apply elem_of_nil in He.
  - intros secID. unfold report, generateComparisonReport.
    rewrite buildReport_sections by done.
    destruct (SectionScores prr !! secID) as [sc|] eqn:Hsc; simpl.
    + rewrite decide_True; [done|]. rewrite elem_of_union, elem_of_dom, Hsc. eauto.
    + rewrite decide_False; [done|]. rewrite elem_of_union, elem_of_dom, Hsc.
      by intros [[? ?]|[? ?]].
Qed.

Lemma comparison_with_itself_witness :
  RangeOrder_ok (someOrder prrNew4 prrNew4) prrNew4 prrNew4
  ∧ AnswerChanges (generateComparisonReport (someOrder prrNew4 prrNew4) prrNew4 prrNew4
                     testQuestions "service1") = Some [].
Proof.
  split; [apply someOrder_ok|].
  apply (comparison_with_itself (someOrder prrNew4 prrNew4) prrNew4 testQuestions
           "service1" (someOrder_ok _ _)).
Defined.

(** [X12] How to read an entry of a report of [generateComparisonReport]:
    its text is the catalog's text for its question, empty when the catalog
    lacks the question; an AnswerChanges entry shows the two recorded
    responses, which differ; a NewlyAnsweredQuestions entry shows an empty
    old answer and the response recorded by the new submission, for a
    question the old one does not answer; a NoLongerAnsweredQuestions entry
    is the mirror image. *)
Theorem report_entries ro oldPRR newPRR allQuestions serviceID e :
  RangeOrder_ok ro oldPRR newPRR →
  let report := generateComparisonReport ro oldPRR newPRR allQuestions serviceID in
  let oldAnswers := answersMap (Answers oldPRR) in
  let newAnswers := answersMap (Answers newPRR) in
  let text := from_option q_Text "" (allQuestions !! acd_QuestionID e) in
  (e ∈ elems (AnswerChanges report) →
     acd_QuestionText e = text
     ∧ oldAnswers !! acd_QuestionID e = Some (OldAnswer e)
     ∧ newAnswers !! acd_QuestionID e = Some (NewAnswer e)
     ∧ OldAnswer e ≠ NewAnswer e)
  ∧ (e ∈ elems (NewlyAnsweredQuestions report) →
       acd_QuestionText e = text
       ∧ oldAnswers !! acd_QuestionID e = None ∧ OldAnswer e = ""
       ∧ newAnswers !! acd_QuestionID e = Some (NewAnswer e))
  ∧ (e ∈ elems (NoLongerAnsweredQuestions report) →
       acd_QuestionText e = text
       ∧ oldAnswers !! acd_QuestionID e = Some (OldAnswer e)
       ∧ newAnswers !! acd_QuestionID e = None ∧ NewAnswer e = "").
Proof.
  intros Hro report oldAnswers newAnswers text.
  unfold report, oldAnswers, newAnswers, text, generateComparisonReport.
  assert (Htext : ∀ q, questionText allQuestions q = from_option q_Text "" (allQuestions !! q))
    by (intros q; unfold questionText; by destruct (allQuestions !! q)).
  split_and!; intros He.
  - apply changes_elem_of in He as [He|(q & o & n & Ho & Hn & Hne & ->)]; [|simpl|done].
    + by apply elem_of_nil in He.
    + by rewrite Htext.
  - apply newly_elem_of in He as [He|(q & n & Hn & Ho & ->)]; [|simpl|done].
    + by apply elem_of_nil in He.
    + by rewrite Htext.
  - apply gone_elem_of in He as [He|(q & o & Ho & Hn & ->)]; [|simpl|done].
    + by apply elem_of_nil in He.
    + by rewrite Htext.
Qed.

Lemma report_entries_witness :
  RangeOrder_ok (someOrder prrOld3 prrNew3) prrOld3 prrNew3
  ∧ detail "q2" "Question 2 Text" "" "No"
    ∈ elems (NewlyAnsweredQuestions
               (generateComparisonReport (someOrder prrOld3 prrNew3) prrOld3 prrNew3
                  testQuestions "service1"))
  ∧ answersMap (Answers prrOld3) !! "q2" = None.
Proof.
  split; [apply someOrder_ok|].
  assert (Hin : detail "q2" "Question 2 Text" "" "No"
                ∈ elems (NewlyAnsweredQuestions
                     (generateComparisonReport (someOrder prrOld3 prrNew3) prrOld3 prrNew3
                        testQuestions "service1")))
    by (vm_compute; apply list_elem_of_here).
  split; [exact Hin|].
  apply (proj1 (proj2 (report_entries (someOrder prrOld3 prrNew3) prrOld3 prrNew3
                         testQuestions "service1" _ (someOrder_ok _ _))) Hin).
Defined.

(** [X13] The order in which the maps are iterated shows in the order of
    the entries and nowhere else: two runs of [generateComparisonReport] on
    the same arguments produce the same section comparison, and each of the
    three collections of one run is a rearrangement of that of the other. *)
Theorem runs_differ_in_order_only ro1 ro2 oldPRR newPRR allQuestions serviceID :
  RangeOrder_ok ro1 oldPRR newPRR →
  RangeOrder_ok ro2 oldPRR newPRR →
  let report1 := generateComparisonReport ro1 oldPRR newPRR allQuestions serviceID in
  let report2 := generateComparisonReport ro2 oldPRR newPRR allQuestions serviceID in
  SectionComparison report1 = SectionComparison report2
  ∧ elems (AnswerChanges report1) ≡ₚ elems (AnswerChanges report2)
  ∧ elems (NewlyAnsweredQuestions report1) ≡ₚ elems (NewlyAnsweredQuestions report2)
  ∧ elems (NoLongerAnsweredQuestions report1) ≡ₚ elems (NoLongerAnsweredQuestions report2).
Proof.
  intros H1 H2 report1 report2. unfold report1, report2, generateComparisonReport.
  split.
  - apply map_eq; intros secID. by rewrite !buildReport_sections.
  - destruct H1 as (_ & _ & _ & Ho1 & Hn1). destruct H2 as (_ & _ & _ & Ho2 & Hn2).
    unfold ranges in *. unfold buildReport; simpl.
    rewrite !compareOldAnswer_fold, !compareNewAnswer_fold; simpl.
    rewrite !elems_extend; simpl.
    by rewrite Ho1, Ho2, Hn1, Hn2.
Qed.

Lemma backwards_ok ro oldPRR newPRR :
  RangeOrder_ok ro oldPRR newPRR → RangeOrder_ok (backwards ro) oldPRR newPRR.
Proof.
  intros (Ho & Hn & Ha & Hoa & Hna). unfold RangeOrder_ok, ranges in *; simpl.
  split_and!; try done; by rewrite reverse_Permutation.
Qed.

Lemma runs_differ_in_order_only_witness :
  RangeOrder_ok (someOrder prrOld4 prrNew4) prrOld4 prrNew4
  ∧ RangeOrder_ok (backwards (someOrder prrOld4 prrNew4)) prrOld4 prrNew4
  ∧ elems (NewlyAnsweredQuestions
             (generateComparisonReport (someOrder prrOld4 prrNew4) prrOld4 prrNew4
                testQuestions "service1"))
    ≡ₚ elems (NewlyAnsweredQuestions
                (generateComparisonReport (backwards (someOrder prrOld4 prrNew4))
                   prrOld4 prrNew4 testQuestions "service1")).
Proof.
  split; [apply someOrder_ok|]. split; [apply backwards_ok, someOrder_ok|].
  apply (runs_differ_in_order_only (someOrder prrOld4 prrNew4)
           (backwards (someOrder prrOld4 prrNew4))
           prrOld4 prrNew4 testQuestions "service1");
    [apply someOrder_ok|apply backwards_ok, someOrder_ok].
Defined.

Lemma answerTriple_omap (f g : string * string → option AnswerChangeDetail)
    (order : list (string * string)) :
  (∀ e, answerTriple <$> f e = answerTriple <$> g e) →
  answerTriple <$> omap f order = answerTriple <$> omap g order.
Proof.
  intros Hfg. induction order as [|e order IH]; [done|]. simpl in *.
  specialize (Hfg e). destruct (f e) as [d|], (g e) as [d'|]; try done.
  change (Some (answerTriple d) = Some (answerTriple d')) in Hfg.
  apply (inj Some) in Hfg. simpl. f_equal; [done|apply IH].
Qed.

(** [X14] The catalog passed to a report builder decides the question
    texts and nothing else: on the same submissions, with the same
    iteration orders, two catalogs give reports with the same section
    comparison and, entry by entry, the same question ids and old and new
    answers in all three collections. *)
Theorem catalog_decides_text_only init ro oldPRR newPRR allQuestions allQuestions' serviceID :
  let report := buildReport init ro oldPRR newPRR allQuestions serviceID in
  let report' := buildReport init ro oldPRR newPRR allQuestions' serviceID in
  SectionComparison report = SectionComparison report'
  ∧ answerTriple <$> elems (AnswerChanges report)
    = answerTriple <$> elems (AnswerChanges report')
  ∧ answerTriple <$> elems (NewlyAnsweredQuestions report)
    = answerTriple <$> elems (NewlyAnsweredQuestions report')
  ∧ answerTriple <$> elems (NoLongerAnsweredQuestions report)
    = answerTriple <$> elems (NoLongerAnsweredQuestions report').
Proof.
  unfold buildReport; simpl.
  rewrite !compareOldAnswer_fold, !compareNewAnswer_fold; simpl.
  rewrite !elems_extend, !fmap_app.
  split_and!; [done|f_equal..]; apply answerTriple_omap; intros e.
  - unfold changeOf. destruct (answersMap (Answers newPRR) !! e.1); [|done].
    by case_decide.
  - unfold newlyOf. by destruct (answersMap (Answers oldPRR) !! e.1).
  - unfold goneOf. by destruct (answersMap (Answers newPRR) !! e.1).
Qed.

(** [X15] When a submission answers a question more than once the
    comparison sees the last of its responses only: the lookup map built
    from the answers gives each question id the response of its last
    occurrence in the list, and nothing for an id that does not occur. *)
Theorem last_response_wins (answers : list Answer) (qID : string) :
  answersMap answers !! qID = lastResponse qID answers.
Proof.
  unfold lastResponse.
  induction answers as [|a answers IH] using rev_ind; [done|].
  rewrite answersMap_snoc, filter_app.
  destruct (decide (QuestionID a = qID)) as [Heq|Hne].
  - rewrite filter_cons_True by done. rewrite Heq, lookup_insert_eq.
    by rewrite filter_nil, last_snoc.
  - rewrite filter_cons_False by done. rewrite lookup_insert_ne by done.
    by rewrite filter_nil, app_nil_r.
Qed.

(** A tally paired in a section comparison, in terms of the answers of the
    submission it comes from, when the submission's scores are the ones the
    scoring loop computes. *)
Lemma scored_side questionsMap answers s :
  Z.of_nat (length answers) <= GoInt.MaxInt →
  let side := default zeroSectionScore
                (calculateSectionScores answers questionsMap !! s) in
  YesCount side = Z.of_nat (length (answersOf questionsMap s "yes" answers))
  ∧ NoCount side = Z.of_nat (length (answersOf questionsMap s "no" answers))
  ∧ NaCount side = Z.of_nat (length (answersOf questionsMap s "n/a" answers))
  ∧ (answersIn questionsMap s answers = [] → SectionID side = "")
  ∧ (answersIn questionsMap s answers ≠ [] → SectionID side = s).
Proof.
  intros Hlen side. unfold side. rewrite calculateSectionScores_lookup.
  case_decide as Hnil.
  - rewrite !answersOf_sub by done. by split_and!.
  - rewrite countedScore_exact by done. by split_and!.
Qed.

(** [X16] Scoring and comparison fit together: when both submissions carry
    the scores the scoring loop computes from their answers against one
    catalog, every entry of the section comparison shows, on either side,
    the exact numbers of that submission's "yes", "no" and "n/a" answers in
    the section; a side whose submission has no answer in the section shows
    zeros under an empty SectionID, the other side carries the section id. *)
Theorem comparison_of_scored_submissions ro oldPRR newPRR questionsMap serviceID secID cmp :
  RangeOrder_ok ro oldPRR newPRR →
  Z.of_nat (length (Answers oldPRR)) <= GoInt.MaxInt →
  Z.of_nat (length (Answers newPRR)) <= GoInt.MaxInt →
  SectionScores oldPRR = calculateSectionScores (Answers oldPRR) questionsMap →
  SectionScores newPRR = calculateSectionScores (Answers newPRR) questionsMap →
  SectionComparison (generateComparisonReport ro oldPRR newPRR questionsMap serviceID)
    !! secID = Some cmp →
  let exact side answers :=
    YesCount side = Z.of_nat (length (answersOf questionsMap secID "yes" answers))
    ∧ NoCount side = Z.of_nat (length (answersOf questionsMap secID "no" answers))
    ∧ NaCount side = Z.of_nat (length (answersOf questionsMap secID "n/a" answers))
    ∧ (answersIn questionsMap secID answers = [] → SectionID side = "")
    ∧ (answersIn questionsMap secID answers ≠ [] → SectionID side = secID) in
  exact (OldScores cmp) (Answers oldPRR)
  ∧ exact (NewScores cmp) (Answers newPRR)
  ∧ (answersIn questionsMap secID (Answers oldPRR) ≠ []
     ∨ answersIn questionsMap secID (Answers newPRR) ≠ []).
Proof.
  intros Hro Hlo Hln Hso Hsn Hcmp exact. unfold exact.
  unfold generateComparisonReport in Hcmp.
  rewrite buildReport_sections in Hcmp by done.
  case_decide as Hin; [|done]. injection Hcmp as <-. simpl.
  rewrite Hso, Hsn. split; [|split].
  - by apply scored_side.
  - by apply scored_side.
  - rewrite Hso, Hsn, elem_of_union, !scores_dom in Hin. done.
Qed.

Lemma comparison_of_scored_submissions_witness :
  let old := mkPRR "o" 0 [ans "q1" "Yes"]
               (calculateSectionScores [ans "q1" "Yes"] testQuestions) in
  let new := mkPRR "n" 1 [ans "q3" "no"; ans "q4" "NO"]
               (calculateSectionScores [ans "q3" "no"; ans "q4" "NO"] testQuestions) in
  RangeOrder_ok (someOrder old new) old new
  ∧ SectionComparison (generateComparisonReport (someOrder old new) old new
                         testQuestions "service1") !! "s2"
    = Some {| OldScores := score "" 0 0 0; NewScores := score "s2" 0 2 0 |}
  ∧ YesCount (score "" 0 0 0)
    = Z.of_nat (length (answersOf testQuestions "s2" "yes" [ans "q1" "Yes"])).
Proof.
  intros old new.
  assert (Hcmp : SectionComparison (generateComparisonReport (someOrder old new) old new
                         testQuestions "service1") !! "s2"
    = Some {| OldScores := score "" 0 0 0; NewScores := score "s2" 0 2 0 |})
    by (by vm_compute).
  split; [apply someOrder_ok|]. split; [exact Hcmp|].
  refine (proj1 (proj1 (comparison_of_scored_submissions (someOrder old new) old new
            testQuestions "service1" "s2" _ (someOrder_ok _ _) _ _ _ _ Hcmp)));
    by vm_compute.
Defined.

(** * Further properties of the comparison handler *)

(** [X17] The handler's own copy of the comparison agrees with
    [generateComparisonReport] on everything but the presence of empty
    collections: when the handler answers with a report, it is the report of
    the stored submissions taken in the order of their timestamps, with the
    same ids, the same section comparison and the same entries in each
    collection as [generateComparisonReport] returns for them. *)
Theorem handler_agrees_with_generateComparisonReport ro store allQuestions
    serviceID prrID1 prrID2 report :
  comparePRRSubmissionsHandler ro store allQuestions serviceID prrID1 prrID2 = HttpOK report →
  ∃ sub1 sub2,
    store !! prrID1 = Some sub1 ∧ store !! prrID2 = Some sub2
    ∧ let '(oldPRR, newPRR) := orderByTimestamp sub1 sub2 in
      let generated := generateComparisonReport ro oldPRR newPRR allQuestions serviceID in
      r_ServiceID report = r_ServiceID generated
      ∧ PRRSubmissionIDOld report = PRRSubmissionIDOld generated
      ∧ PRRSubmissionIDNew report = PRRSubmissionIDNew generated
      ∧ SectionComparison report = SectionComparison generated
      ∧ elems (AnswerChanges report) = elems (AnswerChanges generated)
      ∧ elems (NewlyAnsweredQuestions report) = elems (NewlyAnsweredQuestions generated)
      ∧ elems (NoLongerAnsweredQuestions report)
        = elems (NoLongerAnsweredQuestions generated).
Proof.
  intros (sub1 & sub2 & H1 & H2 & ->)%comparePRRSubmissionsHandler_OK.
  exists sub1, sub2. split; [done|]. split; [done|].
  destruct (orderByTimestamp sub1 sub2) as [oldPRR newPRR]; simpl.
  unfold generateComparisonReport, buildReport; simpl.
  rewrite !compareOldAnswer_fold, !compareNewAnswer_fold; simpl.
  by rewrite !elems_extend.
Qed.

Lemma handler_agrees_with_generateComparisonReport_witness :
  ∃ report,
    comparePRRSubmissionsHandler (someOrder prrOld1 prrNew1) testStore1 testQuestions
      "service1" "prrNew1" "prrOld1" = HttpOK report
    ∧ PRRSubmissionIDOld report = "prrOld1"
    ∧ SectionComparison report
      = SectionComparison (generateComparisonReport (someOrder prrOld1 prrNew1)
                             prrOld1 prrNew1 testQuestions "service1").
Proof.
  eexists. split; [by vm_compute|].
  destruct (handler_agrees_with_generateComparisonReport (someOrder prrOld1 prrNew1)
              testStore1 testQuestions "service1" "prrNew1" "prrOld1" _ eq_refl)
    as (sub1 & sub2 & H1 & H2 & Hrep).
  vm_compute in H1. vm_compute in H2. injection H1 as <-. injection H2 as <-.
  destruct Hrep as (_ & Hold & _ & Hsec & _). split; [exact Hold|exact Hsec].
Defined.

Lemma orderByTimestamp_swap sub1 sub2 :
  Timestamp sub1 ≠ Timestamp sub2 →
  orderByTimestamp sub1 sub2 = orderByTimestamp sub2 sub1.
Proof.
  intros Hne. unfold orderByTimestamp.
  destruct (Z.ltb_spec (Timestamp sub1) (Timestamp sub2));
    destruct (Z.ltb_spec (Timestamp sub2) (Timestamp sub1)); try done; lia.
Qed.

Lemma extend_sameEntries init f (order1 order2 : list (string * string)) :
  order1 ≡ₚ order2 →
  sameEntries (extend init (omap f order1)) (extend init (omap f order2)).
Proof.
  intros Hperm.
  assert (Hf : omap f order1 ≡ₚ omap f order2) by (by rewrite Hperm).
  split.
  - rewrite !extend_None. split; intros [-> Hnil]; (split; [done|]).
    + rewrite Hnil in Hf. by apply Permutation_nil_l in Hf.
    + rewrite Hnil in Hf. by apply Permutation_nil_r in Hf.
  - rewrite !elems_extend. by rewrite Hf.
Qed.

Lemma buildReport_sameUpToOrder init ro1 ro2 oldPRR newPRR allQuestions serviceID :
  RangeOrder_ok ro1 oldPRR newPRR →
  RangeOrder_ok ro2 oldPRR newPRR →
  sameUpToOrder (HttpOK (buildReport init ro1 oldPRR newPRR allQuestions serviceID))
                (HttpOK (buildReport init ro2 oldPRR newPRR allQuestions serviceID)).
Proof.
  intros H1 H2. unfold sameUpToOrder. split_and!; try done.
  - apply map_eq; intros secID. by rewrite !buildReport_sections.
  - destruct H1 as (_ & _ & _ & Ho1 & _). destruct H2 as (_ & _ & _ & Ho2 & _).
    unfold buildReport; simpl. rewrite !compareOldAnswer_fold; simpl.
    apply extend_sameEntries. unfold ranges in *. by rewrite Ho1, Ho2.
  - destruct H1 as (_ & _ & _ & _ & Hn1). destruct H2 as (_ & _ & _ & _ & Hn2).
    unfold buildReport; simpl. rewrite !compareNewAnswer_fold.
    apply extend_sameEntries. unfold ranges in *. by rewrite Hn1, Hn2.
  - destruct H1 as (_ & _ & _ & Ho1 & _). destruct H2 as (_ & _ & _ & Ho2 & _).
    unfold buildReport; simpl. rewrite !compareOldAnswer_fold; simpl.
    apply extend_sameEntries. unfold ranges in *. by rewrite Ho1, Ho2.
Qed.

(** [X18] For two stored submissions with different timestamps the handler
    does not care which id is passed as prr_id1 and which as prr_id2: the
    two requests, each iterating its maps in an order of its own, are
    answered alike up to the order of the entries in the three collections:
    with the same error, or with reports that have the same service,
    the same old and new submission, the same section comparison and, in
    each collection, the same entries, possibly in a different order. *)
Theorem handler_ignores_parameter_order ro1 ro2 store allQuestions serviceID
    prrID1 prrID2 sub1 sub2 :
  store !! prrID1 = Some sub1 →
  store !! prrID2 = Some sub2 →
  Timestamp sub1 ≠ Timestamp sub2 →
  RangeOrder_ok ro1 (orderByTimestamp sub1 sub2).1 (orderByTimestamp sub1 sub2).2 →
  RangeOrder_ok ro2 (orderByTimestamp sub1 sub2).1 (orderByTimestamp sub1 sub2).2 →
  sameUpToOrder
    (comparePRRSubmissionsHandler ro1 store allQuestions serviceID prrID1 prrID2)
    (comparePRRSubmissionsHandler ro2 store allQuestions serviceID prrID2 prrID1).
Proof.
  intros Hk1 Hk2 Hts Hro1 Hro2. unfold comparePRRSubmissionsHandler.
  rewrite Hk1, Hk2, <- (orderByTimestamp_swap sub1 sub2 Hts).
  destruct (orderByTimestamp sub1 sub2) as [oldPRR newPRR]. simpl in Hro1, Hro2.
  destruct (decide (serviceID = "" ∨ prrID1 = "" ∨ prrID2 = "")) as [Hp|Hp].
  { rewrite decide_True by tauto. done. }
  rewrite (decide_False (P := serviceID = "" ∨ prrID2 = "" ∨ prrID1 = "")) by tauto.
  destruct (decide (prrID1 = prrID2)) as [Hd|Hd].
  { rewrite decide_True by done. done. }
  rewrite (decide_False (P := prrID2 = prrID1)) by congruence.
  destruct (decide (ServiceID sub1 ≠ serviceID ∨ ServiceID sub2 ≠ serviceID)) as [Hs|Hs].
  { rewrite decide_True by tauto. done. }
  rewrite (decide_False (P := ServiceID sub2 ≠ serviceID ∨ ServiceID sub1 ≠ serviceID))
    by tauto.
  by apply buildReport_sameUpToOrder.
Qed.

Lemma handler_ignores_parameter_order_witness :
  testStore4 !! "prrOld4" = Some prrOld4
  ∧ testStore4 !! "prrNew4" = Some prrNew4
  ∧ Timestamp prrOld4 ≠ Timestamp prrNew4
  ∧ sameUpToOrder
      (comparePRRSubmissionsHandler (someOrder prrOld4 prrNew4) testStore4 testQuestions
         "service1" "prrOld4" "prrNew4")
      (comparePRRSubmissionsHandler (backwards (someOrder prrOld4 prrNew4)) testStore4
         testQuestions "service1" "prrNew4" "prrOld4").
Proof.
  assert (H1 : testStore4 !! "prrOld4" = Some prrOld4) by reflexivity.
  assert (H2 : testStore4 !! "prrNew4" = Some prrNew4) by reflexivity.
  assert (Hts : Timestamp prrOld4 ≠ Timestamp prrNew4) by discriminate.
  split; [exact H1|]. split; [exact H2|]. split; [exact Hts|].
  apply (handler_ignores_parameter_order _ _ _ _ _ _ _ _ _ H1 H2 Hts).
  - apply someOrder_ok.
  - apply backwards_ok, someOrder_ok.
Defined.

(** [X19] What a report of the handler is about: both stored submissions
    belong to the service of the request, which the report names; the
    submission with the earlier timestamp is reported as the old one; and
    when the two timestamps are equal, the one passed as prr_id2 is. *)
Theorem handler_old_and_new ro store allQuestions serviceID prrID1 prrID2 sub1 sub2 report :
  comparePRRSubmissionsHandler ro store allQuestions serviceID prrID1 prrID2 = HttpOK report →
  store !! prrID1 = Some sub1 →
  store !! prrID2 = Some sub2 →
  r_ServiceID report = serviceID
  ∧ ServiceID sub1 = serviceID ∧ ServiceID sub2 = serviceID
  ∧ (Timestamp sub1 < Timestamp sub2 →
     PRRSubmissionIDOld report = ID sub1 ∧ PRRSubmissionIDNew report = ID sub2)
  ∧ (Timestamp sub2 <= Timestamp sub1 →
     PRRSubmissionIDOld report = ID sub2 ∧ PRRSubmissionIDNew report = ID sub1).
Proof.
  unfold comparePRRSubmissionsHandler. intros Hrun H1 H2. rewrite H1, H2 in Hrun.
  repeat case_decide; try done.
  unfold orderByTimestamp in Hrun.
  destruct (Z.ltb_spec (Timestamp sub1) (Timestamp sub2)); injection Hrun as <-; simpl;
    (split_and!; [done|by destruct (decide (ServiceID sub1 = serviceID)); [|tauto]
                 |by destruct (decide (ServiceID sub2 = serviceID)); [|tauto]
                 |intros; try lia; done|intros; try lia; done]).
Qed.

Lemma handler_old_and_new_witness :
  let store := <["prrOld1" := prrOld1]> {[ "prrTie" := prrTie ]} in
  ∃ report,
    comparePRRSubmissionsHandler (someOrder prrTie prrOld1) store testQuestions
      "service1" "prrOld1" "prrTie" = HttpOK report
    ∧ Timestamp prrTie <= Timestamp prrOld1
    ∧ PRRSubmissionIDOld report = "prrTie" ∧ PRRSubmissionIDNew report = "prrOld1".
Proof.
  intros store. eexists. split; [by vm_compute|].
  assert (Hts : Timestamp prrTie <= Timestamp prrOld1) by (by vm_compute).
  split; [exact Hts|].
  refine (proj2 (proj2 (proj2 (proj2
            (handler_old_and_new (someOrder prrTie prrOld1) store testQuestions
               "service1" "prrOld1" "prrTie" prrOld1 prrTie _ eq_refl eq_refl eq_refl)))) Hts).
Defined.



(** * submitPRRHandler as a whole *)

(** [X21] What a submission request does to the store: a rejected request
    (status 400: blank service id, blank user id or no answers) leaves it
    unchanged; an accepted one adds the new submission under its id and
    touches no other document; and a store in which every submission sits
    under its own id with at least one answer stays such a store. *)
Theorem submit_store_effect (TrimSpace : string → string) newID now hits store requestPayload :
  let result := submitPRRHandler TrimSpace newID now hits store requestPayload in
  match result.2 with
  | SubmitError status _ => status = 400 ∧ result.1 = store
  | SubmitCreated submission =>
      result.1 !! newID = Some submission
      ∧ ID submission = newID
      ∧ Answers submission = req_Answers requestPayload
      ∧ Answers submission ≠ []
      ∧ ∀ k, k ≠ newID → result.1 !! k = store !! k
  end
  ∧ (storedWell store → storedWell result.1).
Proof.
  unfold submitPRRHandler.
  repeat case_decide; simpl; try (by split).
  assert (Hne : req_Answers requestPayload ≠ [])
    by (by destruct (req_Answers requestPayload)).
  split.
  - split_and!; try done.
    + by rewrite lookup_insert_eq.
    + intros k Hk. by rewrite lookup_insert_ne.
  - intros Hwell k sub. destruct (decide (newID = k)) as [<-|Hk].
    + rewrite lookup_insert_eq. by intros [= <-].
    + rewrite lookup_insert_ne by done. apply Hwell.
Qed.

Lemma testStore1_storedWell : storedWell testStore1.
Proof.
  intros k sub Hk. unfold testStore1 in Hk.
  apply lookup_insert_Some in Hk as [[<- <-]|[? Hk]]; [by split|].
  apply lookup_singleton_Some in Hk as [<- <-]. by split.
Qed.

Lemma submit_store_effect_witness :
  storedWell testStore1
  ∧ storedWell (submitPRRHandler trimSpaceASCII "prr3" 2 [Some (mkQ "q1" "s1" "t")]
                  testStore1
                  {| req_ServiceID := " service1"; req_UserID := "u";
                     req_Answers := [ans "q1" "yes"] |}).1.
Proof.
  split; [exact testStore1_storedWell|].
  apply (proj2 (submit_store_effect trimSpaceASCII "prr3" 2 [Some (mkQ "q1" "s1" "t")]
                  testStore1
                  {| req_ServiceID := " service1"; req_UserID := "u";
                     req_Answers := [ans "q1" "yes"] |})).
  exact testStore1_storedWell.
Defined.

(** [X22] From two submissions to their comparison: when two requests for
    one service are accepted one after the other, under different ids and
    with the first timestamp before the second, and the same catalog is
    fetched throughout, the comparison handler answers a request for the two
    ids, passed in either order and whatever order its maps are iterated
    in, with a report that has the first submission as the old one and, in
    every entry of its section comparison, the exact numbers of "yes", "no"
    and "n/a" answers the two requests gave in that section. *)
Theorem submit_twice_then_compare (TrimSpace : string → string) ro hits store0
    id1 id2 t1 t2 req1 req2 store1 store2 sub1 sub2 serviceID prrID1 prrID2 :
  submitPRRHandler TrimSpace id1 t1 hits store0 req1 = (store1, SubmitCreated sub1) →
  submitPRRHandler TrimSpace id2 t2 hits store1 req2 = (store2, SubmitCreated sub2) →
  req_ServiceID req1 = serviceID → req_ServiceID req2 = serviceID →
  serviceID ≠ "" → id1 ≠ "" → id2 ≠ "" → id1 ≠ id2 → t1 < t2 →
  Z.of_nat (length (req_Answers req1)) <= GoInt.MaxInt →
  Z.of_nat (length (req_Answers req2)) <= GoInt.MaxInt →
  RangeOrder_ok ro sub1 sub2 →
  (prrID1 = id1 ∧ prrID2 = id2) ∨ (prrID1 = id2 ∧ prrID2 = id1) →
  let questionsMap := questionsMapOfHits hits in
  ∃ report,
    comparePRRSubmissionsHandler ro store2 questionsMap serviceID prrID1 prrID2
    = HttpOK report
    ∧ PRRSubmissionIDOld report = id1 ∧ PRRSubmissionIDNew report = id2
    ∧ ∀ secID cmp,
        SectionComparison report !! secID = Some cmp →
        let exact side answers :=
          YesCount side = Z.of_nat (length (answersOf questionsMap secID "yes" answers))
          ∧ NoCount side = Z.of_nat (length (answersOf questionsMap secID "no" answers))
          ∧ NaCount side = Z.of_nat (length (answersOf questionsMap secID "n/a" answers)) in
        exact (OldScores cmp) (req_Answers req1)
        ∧ exact (NewScores cmp) (req_Answers req2).
Proof.
  intros Hs1 Hs2 Hsv1 Hsv2 Hsid Hid1 Hid2 Hne Hts Hl1 Hl2 Hro Hab questionsMap.
  unfold submitPRRHandler in Hs1, Hs2.
  repeat case_decide; try done.
  injection Hs1 as <- <-. injection Hs2 as <- <-.
  set (sub1 := {| ID := id1; ServiceID := req_ServiceID req1; UserID := req_UserID req1;
                  Timestamp := t1; Answers := req_Answers req1;
                  SectionScores := calculateSectionScores (req_Answers req1) questionsMap |})
    in *.
  set (sub2 := {| ID := id2; ServiceID := req_ServiceID req2; UserID := req_UserID req2;
                  Timestamp := t2; Answers := req_Answers req2;
                  SectionScores := calculateSectionScores (req_Answers req2) questionsMap |})
    in *.
  exists (buildReport None ro sub1 sub2 questionsMap serviceID).
  assert (Hrun :
    comparePRRSubmissionsHandler ro (<[id2 := sub2]> (<[id1 := sub1]> store0))
      questionsMap serviceID prrID1 prrID2
    = HttpOK (buildReport None ro sub1 sub2 questionsMap serviceID)).
  { unfold comparePRRSubmissionsHandler.
    rewrite decide_False by (destruct Hab as [[-> ->]|[-> ->]]; tauto).
    rewrite decide_False by (destruct Hab as [[-> ->]|[-> ->]]; congruence).
    assert (Hk1 : <[id2 := sub2]> (<[id1 := sub1]> store0) !! id1 = Some sub1)
      by (rewrite lookup_insert_ne, lookup_insert_eq; done).
    assert (Hk2 : <[id2 := sub2]> (<[id1 := sub1]> store0) !! id2 = Some sub2)
      by (by rewrite lookup_insert_eq).
    assert (Hsv : ¬ (ServiceID sub1 ≠ serviceID ∨ ServiceID sub2 ≠ serviceID))
      by (simpl; tauto).
    assert (Hsv' : ¬ (ServiceID sub2 ≠ serviceID ∨ ServiceID sub1 ≠ serviceID))
      by (simpl; tauto).
    unfold orderByTimestamp.
    destruct Hab as [[-> ->]|[-> ->]]; rewrite Hk1, Hk2.
    - rewrite decide_False by done. simpl.
      destruct (Z.ltb_spec t1 t2); [done|lia].
    - rewrite decide_False by done. simpl.
      destruct (Z.ltb_spec t2 t1); [lia|done]. }
  split; [exact Hrun|]. split; [done|]. split; [done|].
  intros secID cmp Hcmp. rewrite buildReport_sections in Hcmp by done.
  case_decide; [|done]. injection Hcmp as <-. simpl.
  destruct (scored_side questionsMap (req_Answers req1) secID Hl1) as (? & ? & ? & _).
  destruct (scored_side questionsMap (req_Answers req2) secID Hl2) as (? & ? & ? & _).
  by split_and!.
Qed.

Lemma submit_twice_then_compare_witness :
  let hits := [Some (mkQ "q1" "s1" "Question 1 Text"); Some (mkQ "q3" "s2" "Question 3 Text")] in
  let req1 := {| req_ServiceID := "service1"; req_UserID := "u";
                 req_Answers := [ans "q1" "Yes"] |} in
  let req2 := {| req_ServiceID := "service1"; req_UserID := "v";
                 req_Answers := [ans "q1" "no"; ans "q3" "N/A"] |} in
  let run1 := submitPRRHandler trimSpaceASCII "a" 0 hits ∅ req1 in
  let run2 := submitPRRHandler trimSpaceASCII "b" 1 hits run1.1 req2 in
  ∃ sub1 sub2 report,
    run1.2 = SubmitCreated sub1 ∧ run2.2 = SubmitCreated sub2
    ∧ comparePRRSubmissionsHandler (backwards (someOrder sub1 sub2)) run2.1
        (questionsMapOfHits hits) "service1" "b" "a" = HttpOK report
    ∧ PRRSubmissionIDOld report = "a" ∧ PRRSubmissionIDNew report = "b".
Proof.
  intros hits req1 req2 run1 run2.
  destruct run1 as [store1 resp1] eqn:Hrun1. destruct run2 as [store2 resp2] eqn:Hrun2.
  destruct resp1 as [?|sub1]; [by vm_compute in Hrun1|].
  destruct resp2 as [?|sub2]; [by vm_compute in Hrun2|].
  exists sub1, sub2.
  destruct (submit_twice_then_compare trimSpaceASCII (backwards (someOrder sub1 sub2))
              hits ∅ "a" "b" 0 1 req1 req2 store1 store2 sub1 sub2 "service1" "b" "a")
    as (report & Hba & Hold & Hnew & _);
    try done; try (by vm_compute); try apply backwards_ok, someOrder_ok; [by right|].
  exists report. by split_and!.
Defined.

(** * The question handlers *)

(** [X23] The question handlers keep the [questions] index keyed by id:
    if every document is stored under the non-empty id it carries, this is
    still so after a create (with the fresh, non-empty id it draws), after
    an update and after a delete, whatever the request and whether or not
    it is accepted. *)
Theorem question_handlers_keep_index_keyed (index : gmap string Question)
    (newID questionID : string) (question : Question) :
  keyedByID index →
  (newID ≠ "" → keyedByID (createQuestionHandler newID index question).1)
  ∧ keyedByID (updateQuestionHandler index question).1
  ∧ keyedByID (deleteQuestionHandler index questionID).1.
Proof.
  intros Hkey. split_and!.
  - intros Hnew k doc. unfold createQuestionHandler; simpl.
    destruct (decide (newID = k)) as [<-|Hk].
    + rewrite lookup_insert_eq. by intros [= <-].
    + rewrite lookup_insert_ne by done. apply Hkey.
  - unfold updateQuestionHandler. case_decide as Hid; [done|].
    destruct (index !! q_ID question); [|done]. simpl. intros k doc.
    destruct (decide (q_ID question = k)) as [<-|Hk].
    + rewrite lookup_insert_eq. by intros [= <-].
    + rewrite lookup_insert_ne by done. apply Hkey.
  - unfold deleteQuestionHandler. case_decide; [done|]. simpl. intros k doc.
    destruct (decide (questionID = k)) as [<-|Hk].
    + by rewrite lookup_delete_eq.
    + rewrite lookup_delete_ne by done. apply Hkey.
Qed.

Lemma question_handlers_keep_index_keyed_witness :
  keyedByID testQuestions
  ∧ keyedByID (createQuestionHandler "q9" testQuestions (mkQ "" "s3" "new")).1
  ∧ keyedByID (deleteQuestionHandler testQuestions "q2").1.
Proof.
  split; [exact testQuestions_keyedByID|].
  destruct (question_handlers_keep_index_keyed testQuestions "q9" "q2"
              (mkQ "" "s3" "new") testQuestions_keyedByID) as (Hc & _ & Hd).
  split; [apply Hc; discriminate|exact Hd].
Defined.

(** [X24] Deleting a question is idempotent and reports success either
    way: for a non-empty id the answer is 204 whether or not the question
    exists, the question is gone afterwards, every other question is
    untouched, and a second delete changes nothing; deleting the id a create
    has just drawn restores an index that did not hold that id. *)
Theorem delete_question_idempotent (index : gmap string Question)
    (questionID : string) (question : Question) :
  questionID ≠ "" →
  let first := deleteQuestionHandler index questionID in
  let second := deleteQuestionHandler first.1 questionID in
  first.2 = AdminNoContent ∧ second.2 = AdminNoContent
  ∧ second.1 = first.1
  ∧ first.1 !! questionID = None
  ∧ (∀ k, k ≠ questionID → first.1 !! k = index !! k)
  ∧ (index !! questionID = None →
     (deleteQuestionHandler (createQuestionHandler questionID index question).1
        questionID).1 = index).
Proof.
  intros Hid. cbv zeta. unfold deleteQuestionHandler, createQuestionHandler.
  rewrite !decide_False by done. simpl. split_and!; try done.
  - by rewrite delete_delete_eq.
  - apply lookup_delete_eq.
  - intros k Hk. by rewrite lookup_delete_ne.
  - intros Hnone. by rewrite delete_insert_eq, delete_id.
Qed.

Lemma delete_question_idempotent_witness :
  (deleteQuestionHandler testQuestions "nope").2 = AdminNoContent
  ∧ (deleteQuestionHandler testQuestions "nope").1 !! "q1" = testQuestions !! "q1".
Proof.
  destruct (delete_question_idempotent testQuestions "nope" (mkQ "" "" ""))
    as (H1 & _ & _ & _ & Hother & _); [discriminate|].
  split; [exact H1|]. apply Hother. discriminate.
Defined.

(** [X25] An update never adds or removes a question: the ids of the
    index are the same afterwards.  It answers 400 for a body without id and
    404 for an id that is not in the index, in both cases leaving the index
    as it was; otherwise it answers 200 and the index holds the body of the
    request under its id, with every field as the body gives it. *)
Theorem update_question_outcome (index : gmap string Question) (questionUpdates : Question) :
  let result := updateQuestionHandler index questionUpdates in
  dom result.1 = dom index
  ∧ match result.2 with
    | AdminError status _ =>
        result.1 = index
        ∧ ((status = 400 ∧ q_ID questionUpdates = "")
           ∨ (status = 404 ∧ q_ID questionUpdates ≠ ""
              ∧ index !! q_ID questionUpdates = None))
    | AdminOK question =>
        question = questionUpdates
        ∧ is_Some (index !! q_ID questionUpdates)
        ∧ result.1 !! q_ID questionUpdates = Some questionUpdates
        ∧ ∀ k, k ≠ q_ID questionUpdates → result.1 !! k = index !! k
    | _ => False
    end.
Proof.
  unfold updateQuestionHandler. case_decide as Hid; simpl; [by auto|].
  destruct (index !! q_ID questionUpdates) as [old|] eqn:Hold; simpl.
  - split.
    + apply dom_insert_lookup_L. eauto.
    + split_and!; eauto.
      * apply lookup_insert_eq.
      * intros k Hk. by rewrite lookup_insert_ne.
  - split; [done|]. split; [done|]. right. done.
Qed.

Lemma scores_question_unsectioned questionsMap questionsMap' answers qID :
  sectionOfQuestion questionsMap' qID = None →
  (∀ k, k ≠ qID → questionsMap' !! k = questionsMap !! k) →
  calculateSectionScores answers questionsMap'
  = calculateSectionScores (filter (fun a => QuestionID a ≠ qID) answers) questionsMap.
Proof.
  intros Hnone Hother. unfold calculateSectionScores.
  generalize (∅ : gmap string SectionScore).
  induction answers as [|a answers IH]; intros scores; [done|].
  simpl. destruct (decide (QuestionID a = qID)) as [Heq|Hne].
  - rewrite filter_cons_False by tauto.
    rewrite scoreAnswer_sectionOf.
    replace (sectionOf questionsMap' a) with (@None string); [apply IH|].
    unfold sectionOfQuestion in Hnone. unfold sectionOf. by rewrite Heq.
  - rewrite filter_cons_True by done. simpl. rewrite <- IH. f_equal.
    apply scoreAnswer_same_section. by rewrite Hother.
Qed.

(** [X26] An update whose body carries no section id takes the question out
    of scoring: once the index holds the updated question, the score map of
    any answers against it is the score map of the answers to the other
    questions against the index as it was. *)
Theorem update_without_section_unscores (index : gmap string Question)
    (questionUpdates : Question) (answers : list Answer) :
  q_SectionID questionUpdates = "" →
  (updateQuestionHandler index questionUpdates).2 = AdminOK questionUpdates →
  calculateSectionScores answers (updateQuestionHandler index questionUpdates).1
  = calculateSectionScores
      (filter (fun a => QuestionID a ≠ q_ID questionUpdates) answers) index.
Proof.
  intros Hsec Hok. unfold updateQuestionHandler in *.
  case_decide as Hid; [done|].
  destruct (index !! q_ID questionUpdates) as [old|]; [|done]. simpl.
  apply scores_question_unsectioned.
  - unfold sectionOfQuestion. rewrite lookup_insert_eq. by rewrite decide_True.
  - intros k Hk. by rewrite lookup_insert_ne.
Qed.

Lemma update_without_section_unscores_witness :
  (updateQuestionHandler testQuestions (mkQ "q1" "" "only the text")).2
  = AdminOK (mkQ "q1" "" "only the text")
  ∧ calculateSectionScores [ans "q1" "Yes"; ans "q2" "No"]
      (updateQuestionHandler testQuestions (mkQ "q1" "" "only the text")).1
    = calculateSectionScores [ans "q2" "No"] testQuestions.
Proof.
  assert (Hok : (updateQuestionHandler testQuestions (mkQ "q1" "" "only the text")).2
                = AdminOK (mkQ "q1" "" "only the text")) by reflexivity.
  split; [exact Hok|].
  exact (update_without_section_unscores testQuestions (mkQ "q1" "" "only the text")
           [ans "q1" "Yes"; ans "q2" "No"] eq_refl Hok).
Defined.
